(** * fittin.gs: the faceted query, search and slot classification of web.go

    A shallow embedding of the request handlers [Fit], [Fits] and [Search]
    of [web.go], together with the parts of the Go standard library they
    call ([strings], [unicode/utf8], [strconv]).

    Conventions.
    - A Go [string] is a sequence of bytes: [string] here, one [ascii] per
      byte; [len(s)] is [String.length s].
    - [int] is the 64-bit integer of the amd64 port, [int32] wraps at 32 bits;
      both are carried by [Z].
    - A Go [map] is a [gmap]; reading a missing key yields the zero value of
      the element type.  The order in which [range] visits a map is not
      fixed by the language: every [range] takes its order from a
      [Scheduler], and theorems quantify over all schedulers. *)

From Stdlib Require Import ZArith Ascii String List Lia DecimalString.
From stdpp Require Import gmap strings list fin_maps.

(** ** Bytes *)

Definition byte_val (c : ascii) : Z := Z.of_N (N_of_ascii c).
Definition byte_of (z : Z) : ascii := ascii_of_N (Z.to_N z).

Definition in_range (lo hi c : Z) : bool := ((lo <=? c) && (c <=? hi))%Z.

(** [s[n:]] and [s[:n]] on byte strings. *)
Fixpoint string_drop (n : nat) (s : string) : string :=
  match n, s with
  | O, _ => s
  | S k, String _ s' => string_drop k s'
  | S _, EmptyString => EmptyString
  end.

Fixpoint string_take (n : nat) (s : string) : string :=
  match n, s with
  | O, _ => EmptyString
  | S k, String c s' => String c (string_take k s')
  | S _, EmptyString => EmptyString
  end.

(** ** unicode/utf8 *)
Module utf8.

Local Open Scope Z_scope.

Definition RuneError : Z := 65533.
Definition RuneSelf : Z := 128.
Definition MaxRune : Z := 1114111.

(** The [first] table with [acceptRanges]: for a leading byte, the length of
    the sequence and the range its second byte must lie in; [None] stands
    for the entries [xx] (not a leading byte). ASCII is handled before. *)
Definition first (b0 : Z) : option (nat * Z * Z) :=
  if in_range 194 223 b0 then Some (2%nat, 128, 191)
  else if b0 =? 224 then Some (3%nat, 160, 191)
  else if in_range 225 236 b0 then Some (3%nat, 128, 191)
  else if b0 =? 237 then Some (3%nat, 128, 159)
  else if in_range 238 239 b0 then Some (3%nat, 128, 191)
  else if b0 =? 240 then Some (4%nat, 144, 191)
  else if in_range 241 243 b0 then Some (4%nat, 128, 191)
  else if b0 =? 244 then Some (4%nat, 128, 143)
  else None.

Definition locb : Z := 128.
Definition hicb : Z := 191.

Definition DecodeRuneInString (s : string) : Z * nat :=
  match s with
  | EmptyString => (RuneError, 0%nat)
  | String c0 t1 =>
    let s0 := byte_val c0 in
    if s0 <? RuneSelf then (s0, 1%nat)
    else
      match first s0 with
      | None => (RuneError, 1%nat)
      | Some (sz, lo, hi) =>
        if (String.length s <? sz)%nat then (RuneError, 1%nat)
        else
          match t1 with
          | EmptyString => (RuneError, 1%nat)
          | String c1 t2 =>
            let s1 := byte_val c1 in
            if negb (in_range lo hi s1) then (RuneError, 1%nat)
            else if (sz <=? 2)%nat then
              (Z.lor (Z.shiftl (Z.land s0 31) 6) (Z.land s1 63), 2%nat)
            else
              match t2 with
              | EmptyString => (RuneError, 1%nat)
              | String c2 t3 =>
                let s2 := byte_val c2 in
                if negb (in_range locb hicb s2) then (RuneError, 1%nat)
                else if (sz <=? 3)%nat then
                  (Z.lor (Z.lor (Z.shiftl (Z.land s0 15) 12)
                                (Z.shiftl (Z.land s1 63) 6))
                         (Z.land s2 63), 3%nat)
                else
                  match t3 with
                  | EmptyString => (RuneError, 1%nat)
                  | String c3 _ =>
                    let s3 := byte_val c3 in
                    if negb (in_range locb hicb s3) then (RuneError, 1%nat)
                    else
                      (Z.lor (Z.lor (Z.lor (Z.shiftl (Z.land s0 7) 18)
                                           (Z.shiftl (Z.land s1 63) 12))
                                    (Z.shiftl (Z.land s2 63) 6))
                             (Z.land s3 63), 4%nat)
                  end
              end
          end
      end
  end.

(** [RuneStart(b)]: [b] is not a continuation byte. *)
Definition RuneStart (b : Z) : bool := negb (Z.land b 192 =? 128).

(** [DecodeLastRuneInString]: the last rune of [s] and its width. *)
Definition DecodeLastRuneInString (s : string) : Z * nat :=
  let end_ := String.length s in
  match end_ with
  | O => (RuneError, 0%nat)
  | S start =>
    let r := match String.get start s with Some c => byte_val c | None => 0 end in
    if r <? RuneSelf then (r, 1%nat)
    else
      let lim := (end_ - 4)%nat in
      let is_start (i : nat) :=
        match String.get i s with Some c => RuneStart (byte_val c) | None => false end in
      (* for start--; start >= lim; start-- { if RuneStart(s[start]) break } *)
      let start' :=
        if ((lim <=? end_ - 2) && (2 <=? end_) && is_start (end_ - 2))%nat then (end_ - 2)%nat
        else if ((lim <=? end_ - 3) && (3 <=? end_) && is_start (end_ - 3))%nat then (end_ - 3)%nat
        else if ((lim <=? end_ - 4) && (4 <=? end_) && is_start (end_ - 4))%nat then (end_ - 4)%nat
        else (lim - 1)%nat (* start < 0 is reset to 0 *) in
      let '(r', size) := DecodeRuneInString (string_drop start' s) in
      if (start' + size =? end_)%nat then (r', size) else (RuneError, 1%nat)
  end.

(** [AppendRune]/[EncodeRune]: the UTF-8 encoding of a rune; surrogates and
    out-of-range values are written as [RuneError]. *)
Definition enc3 (r : Z) : string :=
  String (byte_of (Z.lor 224 (Z.shiftr r 12)))
    (String (byte_of (Z.lor 128 (Z.land (Z.shiftr r 6) 63)))
       (String (byte_of (Z.lor 128 (Z.land r 63))) EmptyString)).

Definition EncodeRune (r : Z) : string :=
  (* the comparisons of the source are on uint32(r) *)
  let i := r mod 4294967296 in
  if i <=? 127 then String (byte_of i) EmptyString
  else if i <=? 2047 then
    String (byte_of (Z.lor 192 (Z.shiftr i 6)))
      (String (byte_of (Z.lor 128 (Z.land i 63))) EmptyString)
  else if (MaxRune <? i) || in_range 55296 57343 i then enc3 RuneError
  else if i <=? 65535 then enc3 i
  else
    String (byte_of (Z.lor 240 (Z.shiftr i 18)))
      (String (byte_of (Z.lor 128 (Z.land (Z.shiftr i 12) 63)))
         (String (byte_of (Z.lor 128 (Z.land (Z.shiftr i 6) 63)))
            (String (byte_of (Z.lor 128 (Z.land i 63))) EmptyString))).

(** [for i, c := range s]: the runes of [s] in order, each with the bytes
    it was decoded from.  [skip] counts the bytes of the current rune still
    to be passed over. *)
Fixpoint spans_from (skip : nat) (s : string) : list (Z * string) :=
  match s with
  | EmptyString => []
  | String _ s' =>
    match skip with
    | S k => spans_from k s'
    | O =>
      let '(r, w) := DecodeRuneInString s in
      (r, string_take w s) :: spans_from (w - 1) s'
    end
  end.

Definition spans (s : string) : list (Z * string) := spans_from 0 s.

Definition RuneCountInString (s : string) : nat := length (spans s).

End utf8.

(** ** unicode *)
Module unicode.

Local Open Scope Z_scope.

Definition MaxLatin1 : Z := 255.
Definition MaxASCII : Z := 127.

(** [unicode.IsSpace]: the Latin-1 switch, then the [White_Space] range
    table above Latin-1. *)
Definition IsSpace (r : Z) : bool :=
  if (r mod 4294967296) <=? MaxLatin1 then
    in_range 9 13 r || (r =? 32) || (r =? 133) || (r =? 160)
  else
    (r =? 5760) || in_range 8192 8202 r || in_range 8232 8233 r
    || (r =? 8239) || (r =? 8287) || (r =? 12288).

Section CaseTable.

(** [unicode.To(LowerCase, r)]: the lookup in the [CaseRanges] table of the
    Unicode database, which is data of the Go distribution; it is only
    consulted above ASCII. *)
Variable To_LowerCase : Z -> Z.

Definition ToLower (r : Z) : Z :=
  if r <=? MaxASCII then
    (if in_range 65 90 r then r + (97 - 65) else r)
  else To_LowerCase r.

End CaseTable.

(** A case table that is exact on Latin-1 (U+0080 to U+00FF) and leaves
    every rune above it unchanged; used to run the handlers on concrete
    requests. *)
Definition latin1_LowerCase (r : Z) : Z :=
  if (in_range 192 214 r || in_range 216 222 r) then r + 32 else r.

End unicode.

(** ** strings *)
Module strings.

Fixpoint HasPrefix (s prefix : string) {struct prefix} : bool :=
  match prefix with
  | EmptyString => true
  | String p prefix' =>
    match s with
    | String c s' => if Ascii.eqb c p then HasPrefix s' prefix' else false
    | EmptyString => false
    end
  end.

(** [strings.Contains(s, substr)]: [substr] occurs in [s] at some offset. *)
Fixpoint Contains (s substr : string) : bool :=
  HasPrefix s substr ||
  match s with
  | EmptyString => false
  | String _ s' => Contains s' substr
  end.

Definition concat_spans (l : list (Z * string)) : string :=
  fold_right (fun p acc => snd p +:+ acc) EmptyString l.

(** [strings.TrimLeftFunc(s, unicode.IsSpace)] *)
Fixpoint drop_space_spans (l : list (Z * string)) : list (Z * string) :=
  match l with
  | [] => []
  | (r, b) :: l' => if unicode.IsSpace r then drop_space_spans l' else l
  end.

Definition TrimLeftSpace (s : string) : string :=
  concat_spans (drop_space_spans (utf8.spans s)).

(** [strings.TrimRightFunc(s, unicode.IsSpace)]: runes are taken off the end
    with [DecodeLastRuneInString] while they are white space. *)
Fixpoint trim_right (fuel : nat) (s : string) : string :=
  match fuel with
  | O => s
  | S k =>
    let '(r, size) := utf8.DecodeLastRuneInString s in
    match size with
    | O => s
    | _ =>
      if unicode.IsSpace r
      then trim_right k (string_take (String.length s - size) s)
      else s
    end
  end.

Definition TrimRightSpace (s : string) : string := trim_right (String.length s) s.

(** [strings.TrimSpace]: leading and trailing white space, as defined by
    Unicode, removed (the ASCII fast paths of the library compute the same
    string). *)
Definition TrimSpace (s : string) : string := TrimRightSpace (TrimLeftSpace s).

(** [strings.FieldsFunc(s, unicode.IsSpace)], which [strings.Fields] equals:
    [cur] is the field being read ([start >= 0] in the library). *)
Fixpoint fields_spans (cur : option string) (l : list (Z * string)) : list string :=
  match l with
  | [] => match cur with Some f => [f] | None => [] end
  | (r, b) :: l' =>
    if unicode.IsSpace r then
      match cur with
      | Some f => f :: fields_spans None l'
      | None => fields_spans None l'
      end
    else
      match cur with
      | Some f => fields_spans (Some (f +:+ b)) l'
      | None => fields_spans (Some b) l'
      end
  end.

Definition Fields (s : string) : list string := fields_spans None (utf8.spans s).

Section CaseTable.

Variable To_LowerCase : Z -> Z.

(** [strings.Map(mapping, s)]: every rune of [s] (an invalid byte reads as
    [RuneError]) is replaced by the encoding of its image; a negative image
    drops the rune. *)
Definition Map (mapping : Z -> Z) (s : string) : string :=
  fold_right
    (fun p acc =>
       let r := mapping (fst p) in
       if (0 <=? r)%Z then utf8.EncodeRune r +:+ acc else acc)
    EmptyString (utf8.spans s).

Fixpoint isASCII (s : string) : bool :=
  match s with
  | EmptyString => true
  | String c s' => (byte_val c <? utf8.RuneSelf)%Z && isASCII s'
  end.

Fixpoint lower_ascii (s : string) : string :=
  match s with
  | EmptyString => EmptyString
  | String c s' =>
    let b := byte_val c in
    String (if in_range 65 90 b then byte_of (b + 32) else c) (lower_ascii s')
  end.

(** [strings.ToLower]: the ASCII fast path, else [Map(unicode.ToLower, s)]. *)
Definition ToLower (s : string) : string :=
  if isASCII s then lower_ascii s
  else Map (unicode.ToLower To_LowerCase) s.

End CaseTable.

End strings.

(** ** strconv *)
Module strconv.

Local Open Scope Z_scope.

Inductive NumError := ErrSyntax | ErrRange.

Definition maxUint64 : Z := 18446744073709551615.

(** The digit loop of [ParseUint(s, 10, 64)]: [n] is the value read so far.
    Overflow is reported where it is met, before the rest is looked at. *)
Fixpoint parse_digits (n : Z) (s : string) : Z * option NumError :=
  match s with
  | EmptyString => (n, None)
  | String c s' =>
    let b := byte_val c in
    if in_range 48 57 b then
      let d := b - 48 in
      if (maxUint64 / 10 + 1) <=? n then (maxUint64, Some ErrRange)
      else
        let n1 := n * 10 + d in
        if maxUint64 <? n1 then (maxUint64, Some ErrRange)
        else parse_digits n1 s'
    else (0, Some ErrSyntax)
  end.

Definition ParseUint (s : string) : Z * option NumError :=
  match s with
  | EmptyString => (0, Some ErrSyntax)
  | _ => parse_digits 0 s
  end.

(** [ParseInt(s, 10, 0)] with [IntSize = 64]. *)
Definition ParseInt (s : string) : Z * option NumError :=
  match s with
  | EmptyString => (0, Some ErrSyntax)
  | String c s' =>
    let neg := Ascii.eqb c "-" in
    let s1 := if Ascii.eqb c "+" || neg then s' else s in
    let '(un, err) := ParseUint s1 in
    match err with
    | Some ErrSyntax => (0, err)
    | _ =>
      let cutoff := 9223372036854775808 in
      if negb neg && (cutoff <=? un) then (cutoff - 1, Some ErrRange)
      else if neg && (cutoff <? un) then (- cutoff, Some ErrRange)
      else ((if neg then - un else un), None)
    end
  end.

(** The loop of the fast path of [Atoi]: no overflow can occur there. *)
Fixpoint fast_digits (n : Z) (s : string) : Z * option NumError :=
  match s with
  | EmptyString => (n, None)
  | String c s' =>
    let b := byte_val c in
    if in_range 48 57 b then fast_digits (n * 10 + (b - 48)) s'
    else (0, Some ErrSyntax)
  end.

Definition Atoi (s : string) : Z * option NumError :=
  let sLen := String.length s in
  if ((0 <? sLen) && (sLen <? 19))%nat then
    match s with
    | EmptyString => (0, Some ErrSyntax)
    | String c s' =>
      let signed := Ascii.eqb c "-" || Ascii.eqb c "+" in
      let digits := if signed then s' else s in
      if signed && (String.length digits <? 1)%nat then (0, Some ErrSyntax)
      else
        let '(n, err) := fast_digits 0 digits in
        match err with
        | Some _ => (0, err)
        | None => ((if Ascii.eqb c "-" then - n else n), None)
        end
    end
  else ParseInt s.

End strconv.

(** ** fmt *)

(** The verb [%d] on a non-negative [int]. *)
Definition Sprintf_d (n : nat) : string := NilZero.string_of_uint (Nat.to_uint n).

(** [int32(x)]: conversion with wrap-around. *)
Definition int32 (x : Z) : Z := ((x + 2147483648) mod 4294967296 - 2147483648)%Z.

(** ** The catalog *)

Module Item.
Record t := { ID : Z; Name : string; Lower : string; Group : Z }.
Definition zero : t := {| ID := 0; Name := ""; Lower := ""; Group := 0 |}.
End Item.

Module Group.
Record t := { ID : Z; Name : string; Category : Z }.
Definition zero : t := {| ID := 0; Name := ""; Category := 0 |}.
End Group.

(** [s.Global]: the two maps of the catalog, keyed by [int32]. *)
Record Global := { Items : gmap Z Item.t; Groups : gmap Z Group.t }.

(** [s.Global.Items[k]] and [s.Global.Groups[k]]: the zero value when [k]
    is not a key. *)
Definition Items_at (G : Global) (k : Z) : Item.t := default Item.zero (Items G !! k).
Definition Groups_at (G : Global) (k : Z) : Group.t := default Group.zero (Groups G !! k).

(** The orders in which the [range] statements visit the catalog: the
    [n]-th [range] over [Items] of a call may follow its own order. *)
Record Scheduler := {
  range_Items : nat -> gmap Z Item.t -> list (Z * Item.t);
  range_Items_perm : forall n m, range_Items n m ≡ₚ map_to_list m;
  range_Groups : gmap Z Group.t -> list (Z * Group.t);
  range_Groups_perm : forall m, range_Groups m ≡ₚ map_to_list m
}.

Definition key_order : Scheduler :=
  {| range_Items := fun _ m => map_to_list m;
     range_Items_perm := fun _ m => reflexivity (map_to_list m);
     range_Groups := fun m => map_to_list m;
     range_Groups_perm := fun m => reflexivity (map_to_list m) |}.

(** ** Requests and store values *)

(** [r.Form] after [ParseForm]: [url.Values]. *)
Record Request := { Form : gmap string (list string) }.

Definition Form_values (r : Request) (key : string) : list string :=
  default [] (Form r !! key).

(** [r.Form.Get(key)] and [r.FormValue(key)]: the first value, or [""]. *)
Definition Form_Get (r : Request) (key : string) : string :=
  match Form_values r key with
  | [] => ""
  | v :: _ => v
  end.

Definition error := string.

(** The bound parameters handed to the store: [int], [int32], a
    [pq.Array([]int)] and a [string]. *)
Inductive Arg :=
| ArgInt (v : Z)
| ArgInt32 (v : Z)
| ArgArray (l : list Z)
| ArgString (v : string).

(** The clauses written after [WHERE TRUE], by the number of the parameter
    each refers to. *)
Inductive Clause :=
| ContainsOne (n : nat)      (* AND items @> $n *)
| ContainsArray (n : nat)    (* AND items @> array_to_json($n::int[]) *)
| AnyOf (ns : list nat).     (* AND ( items @> $n1 OR  items @> $n2 ...) *)

Module FitRow.
(** An element of [ret.Fits]. *)
Record t := {
  Killmail : Z; Ship : Z; Name : string; Cost : Z;
  HiRaw : string; MedRaw : string; LowRaw : string;
  Hi : list Item.t; Med : list Item.t; Lo : list Item.t
}.
End FitRow.

Module FitsRet.
Record t := { Filter : gmap string (list Item.t); Fits : list FitRow.t }.
End FitsRet.

Module Result.
Record t := { Type_ : string; Name : string; ID : Z }.
End Result.

Module SearchRet.
Record t := { Search : string; Results : list Result.t }.
End SearchRet.

(** ** Fits: the predicate builder *)

Definition nl : string := String (byte_of 10) EmptyString.
Definition tab : string := String (byte_of 9) EmptyString.

(** The two raw string literals of [Fits], byte for byte. *)
Definition select_sql : string :=
  nl +:+ tab +:+ tab +:+ "SELECT" +:+
  nl +:+ tab +:+ tab +:+ tab +:+ "killmail," +:+
  nl +:+ tab +:+ tab +:+ tab +:+ "ship," +:+
  nl +:+ tab +:+ tab +:+ tab +:+ "cost," +:+
  nl +:+ tab +:+ tab +:+ tab +:+ "hi AS hiraw," +:+
  nl +:+ tab +:+ tab +:+ tab +:+ "med AS medraw," +:+
  nl +:+ tab +:+ tab +:+ tab +:+ "low AS lowraw" +:+
  nl +:+ tab +:+ tab +:+ "FROM" +:+
  nl +:+ tab +:+ tab +:+ tab +:+ "fits" +:+
  nl +:+ tab +:+ tab +:+ "WHERE" +:+
  nl +:+ tab +:+ tab +:+ tab +:+ "TRUE" +:+
  nl +:+ tab.

Definition order_limit_sql : string :=
  nl +:+ tab +:+ tab +:+ "ORDER BY" +:+
  nl +:+ tab +:+ tab +:+ tab +:+ "killmail DESC" +:+
  nl +:+ tab +:+ tab +:+ "LIMIT" +:+
  nl +:+ tab +:+ tab +:+ tab +:+ "100" +:+
  nl +:+ tab.

(** The state of the builder: the [strings.Builder], [args], [ret.Filter];
    [clauses] records, next to the text, which clause each write completed
    (see [render_clauses]); [ranges] counts the [range] statements over
    [Items] run so far. *)
Record Build := {
  sb : string;
  args : list Arg;
  Filter : gmap string (list Item.t);
  clauses : list Clause;
  ranges : nat
}.

(** [ret.Filter[key] = append(ret.Filter[key], x)] *)
Definition echo (key : string) (x : Item.t)
    (F : gmap string (list Item.t)) : gmap string (list Item.t) :=
  <[key := default [] (F !! key) ++ [x]]> F.

Definition Atoi (s : string) : Z := fst (strconv.Atoi s).

Definition ship_facet (G : Global) (r : Request) (b : Build) : Build :=
  let ship := Atoi (Form_Get r "ship") in
  if (0 <? ship)%Z then
    let args' := args b ++ [ArgInt ship] in
    {| sb := sb b +:+ " AND items @> $" +:+ Sprintf_d (length args');
       args := args';
       Filter := echo "ship" (Items_at G (int32 ship)) (Filter b);
       clauses := clauses b ++ [ContainsOne (length args')];
       ranges := ranges b |}
  else b.

(** [for _, item := range r.Form["item"]] *)
Fixpoint item_loop (G : Global) (vals : list string) (items : list Z)
    (F : gmap string (list Item.t)) : list Z * gmap string (list Item.t) :=
  match vals with
  | [] => (items, F)
  | item :: vals' =>
    let itemid := Atoi item in
    if (itemid <=? 0)%Z then item_loop G vals' items F
    else item_loop G vals' (items ++ [itemid])
           (echo "item" (Items_at G (int32 itemid)) F)
  end.

Definition item_facet (G : Global) (r : Request) (b : Build) : Build :=
  let '(items, F) := item_loop G (Form_values r "item") [] (Filter b) in
  if (0 <? length items)%nat then
    let args' := args b ++ [ArgArray items] in
    {| sb := sb b +:+ " AND items @> array_to_json($" +:+ Sprintf_d (length args') +:+ "::int[])";
       args := args';
       Filter := F;
       clauses := clauses b ++ [ContainsArray (length args')];
       ranges := ranges b |}
  else
    {| sb := sb b; args := args b; Filter := F;
       clauses := clauses b; ranges := ranges b |}.

(** [for id, item := range s.Global.Items] inside the group loop: the text,
    the arguments and the parameter numbers of the disjunction so far. *)
Fixpoint member_loop (gid : Z) (l : list (Z * Item.t)) (or : string)
    (st : string * list Arg * list nat) : string * list Arg * list nat :=
  match l with
  | [] => st
  | (id, item) :: l' =>
    if negb (Item.Group item =? gid)%Z then member_loop gid l' or st
    else
      let '(text, args0, ns) := st in
      let args' := args0 ++ [ArgInt32 id] in
      member_loop gid l' " OR "
        (text +:+ or +:+ " items @> $" +:+ Sprintf_d (length args'),
         args', ns ++ [length args'])
  end.

(** [for _, group := range r.Form["group"]] *)
Fixpoint group_loop (sigma : Scheduler) (G : Global) (vals : list string)
    (b : Build) : Build :=
  match vals with
  | [] => b
  | group :: vals' =>
    let groupid := Atoi group in
    if (groupid <=? 0)%Z then group_loop sigma G vals' b
    else
      let gid := int32 groupid in
      let '(text, args', ns) :=
        member_loop gid (range_Items sigma (ranges b) (Items G)) ""
          (sb b +:+ " AND (", args b, []) in
      let g := Groups_at G gid in
      group_loop sigma G vals'
        {| sb := text +:+ ")";
           args := args';
           Filter := echo "group"
                       {| Item.ID := Group.ID g; Item.Name := Group.Name g;
                          Item.Lower := ""; Item.Group := 0 |} (Filter b);
           clauses := clauses b ++ [AnyOf ns];
           ranges := S (ranges b) |}
  end.

Definition group_facet (sigma : Scheduler) (G : Global) (r : Request)
    (b : Build) : Build :=
  group_loop sigma G (Form_values r "group") b.

(** Lines 121 to 187 of [Fits]: the text handed to the store is [sb], its
    parameters [args]. *)
Definition Fits_build (sigma : Scheduler) (G : Global) (r : Request) : Build :=
  let b0 := {| sb := select_sql; args := []; Filter := ∅;
               clauses := []; ranges := 0 |} in
  let b := group_facet sigma G r (item_facet G r (ship_facet G r b0)) in
  {| sb := sb b +:+ order_limit_sql; args := args b; Filter := Filter b;
     clauses := clauses b; ranges := ranges b |}.

(** The text of one clause, as the writes of [Fits] produce it. *)
Fixpoint render_members (or : string) (ns : list nat) : string :=
  match ns with
  | [] => ""
  | n :: ns' => or +:+ " items @> $" +:+ Sprintf_d n +:+ render_members " OR " ns'
  end.

Definition render_clause (c : Clause) : string :=
  match c with
  | ContainsOne n => " AND items @> $" +:+ Sprintf_d n
  | ContainsArray n => " AND items @> array_to_json($" +:+ Sprintf_d n +:+ "::int[])"
  | AnyOf ns => " AND (" +:+ render_members "" ns +:+ ")"
  end.

Fixpoint render_clauses (cs : list Clause) : string :=
  match cs with
  | [] => ""
  | c :: cs' => render_clause c +:+ render_clauses cs'
  end.

(** ** Fits: the result classifier, and the handler *)

Section Handlers.

(** Modelled from the spec: [Group.IsCharge] is declared outside [web.go];
    it holds iff the group's category is in a fixed set of charge
    categories, which is a parameter here. *)
Variable ChargeCategories : gset Z.

Definition IsCharge (g : Group.t) : bool :=
  bool_decide (Group.Category g ∈ ChargeCategories).

(** [json.Unmarshal(raw, &ids)] with its error dropped: the value of [ids]
    after the call, from the bytes and the value before it (the slices
    [his], [meds], [los] live across the iterations of the loop). *)
Variable json_Unmarshal : string -> list Z -> list Z.

(** One of the three inner loops: the items appended to [f.Hi] for [ids]. *)
Fixpoint slot_items (G : Global) (ids : list Z) : list Item.t :=
  match ids with
  | [] => []
  | v :: ids' =>
    let item := Items_at G v in
    if IsCharge (Groups_at G (Item.Group item)) then slot_items G ids'
    else item :: slot_items G ids'
  end.

(** [for _, f := range ret.Fits]: [his], [meds], [los] are threaded. *)
Fixpoint classify_loop (G : Global) (fits : list FitRow.t)
    (his meds los : list Z) : list FitRow.t :=
  match fits with
  | [] => []
  | f :: fits' =>
    let his' := json_Unmarshal (FitRow.HiRaw f) his in
    let meds' := json_Unmarshal (FitRow.MedRaw f) meds in
    let los' := json_Unmarshal (FitRow.LowRaw f) los in
    {| FitRow.Killmail := FitRow.Killmail f;
       FitRow.Ship := FitRow.Ship f;
       FitRow.Name := Item.Name (Items_at G (FitRow.Ship f));
       FitRow.Cost := FitRow.Cost f;
       FitRow.HiRaw := FitRow.HiRaw f;
       FitRow.MedRaw := FitRow.MedRaw f;
       FitRow.LowRaw := FitRow.LowRaw f;
       FitRow.Hi := FitRow.Hi f ++ slot_items G his';
       FitRow.Med := FitRow.Med f ++ slot_items G meds';
       FitRow.Lo := FitRow.Lo f ++ slot_items G los' |}
    :: classify_loop G fits' his' meds' los'
  end.

(** The slices as they stand when the [i]-th fit is classified. *)
Fixpoint slots_at (fits : list FitRow.t) (i : nat)
    (his meds los : list Z) : list Z * list Z * list Z :=
  match fits with
  | [] => (his, meds, los)
  | f :: fits' =>
    let his' := json_Unmarshal (FitRow.HiRaw f) his in
    let meds' := json_Unmarshal (FitRow.MedRaw f) meds in
    let los' := json_Unmarshal (FitRow.LowRaw f) los in
    match i with
    | O => (his', meds', los')
    | S j => slots_at fits' j his' meds' los'
    end
  end.

Definition classify (G : Global) (fits : list FitRow.t) : list FitRow.t :=
  classify_loop G fits [] [] [].

(** [s.X.SelectContext(ctx, &ret.Fits, sb.String(), args...)]: the store
    executor, an external collaborator.  It receives the text and the
    parameters; the clause list is handed along with the text it renders
    to, so that an executor can be described without parsing SQL. *)
Definition Executor : Type :=
  string -> list Arg -> list Clause -> list FitRow.t * option error.

Definition Fits (X : Executor) (sigma : Scheduler) (G : Global)
    (r : Request) : FitsRet.t * option error :=
  let b := Fits_build sigma G r in
  let '(rows, err) := X (sb b) (args b) (clauses b) in
  ({| FitsRet.Filter := Filter b; FitsRet.Fits := classify G rows |}, err).

(** ** Search *)

Definition searchCategories (c : Z) : string :=
  if (c =? 6)%Z then "ship"
  else if (c =? 7)%Z then "item"
  else if (c =? 8)%Z then "item"
  else if (c =? 32)%Z then "item"
  else "".

(** The loop of the closure [match] over [fields], with its [break]. *)
Fixpoint containsAll (s : string) (fields : list string) : bool :=
  match fields with
  | [] => true
  | term :: fields' =>
    if negb (strings.Contains s term) then false else containsAll s fields'
  end.

(** The closure [match]: [search] is [ret.Search]. *)
Definition match_ (search : string) (fields : list string) (s : string) : bool :=
  if strings.Contains s search then true else containsAll s fields.

Variable To_LowerCase : Z -> Z.

Definition ToLower : string -> string := strings.ToLower To_LowerCase.

(** [for id, group := range s.Global.Groups] *)
Fixpoint search_groups (search : string) (fields : list string)
    (l : list (Z * Group.t)) (results : list Result.t) : list Result.t :=
  match l with
  | [] => results
  | (id, group) :: l' =>
    if negb (match_ search fields (ToLower (Group.Name group)))
    then search_groups search fields l' results
    else search_groups search fields l'
           (results ++ [{| Result.Type_ := "group";
                           Result.Name := Group.Name group;
                           Result.ID := id |}])
  end.

(** [for id, item := range s.Global.Items], with its [break]. *)
Fixpoint search_items (G : Global) (search : string) (fields : list string)
    (l : list (Z * Item.t)) (results : list Result.t) : list Result.t :=
  match l with
  | [] => results
  | (id, item) :: l' =>
    if negb (match_ search fields (Item.Lower item))
    then search_items G search fields l' results
    else
      let typ := searchCategories (Group.Category (Groups_at G (Item.Group item))) in
      let results' :=
        if negb (String.eqb typ "")
        then results ++ [{| Result.Type_ := typ;
                            Result.Name := Item.Name item;
                            Result.ID := id |}]
        else results in
      if (50 <? length results')%nat then results'
      else search_items G search fields l' results'
  end.

(** The normalized term: [strings.ToLower(strings.TrimSpace(term))]. *)
Definition normalize (term : string) : string := ToLower (strings.TrimSpace term).

(** [Search] returns an [interface{}] and an [error]: [None] in the first
    component is the [nil] interface. *)
Definition Search (sigma : Scheduler) (G : Global) (r : Request)
    : option SearchRet.t * option error :=
  let search := normalize (Form_Get r "term") in
  if (String.length search <? 3)%nat then (None, None)
  else
    let fields := strings.Fields search in
    let results := search_groups search fields (range_Groups sigma (Groups G)) [] in
    let results := search_items G search fields (range_Items sigma 0 (Items G)) results in
    (Some {| SearchRet.Search := search; SearchRet.Results := results |}, None).

(** ** Fit *)

(** [s.DB.QueryRowContext(...).Scan(&kmid, &rawKM, &rawZKB)]: the row, or
    the error of the store. *)
Variable QueryRowContext : string -> list Arg -> (Z * string * string) + error.

(** What [Fit] does with a row ([json.Unmarshal] into [KM] and [Zkb],
    [km.Items]) is declared outside [web.go]; its answer is a parameter. *)
Variable FitRet : Type.
Variable Fit_answer : Global -> Z * string * string -> FitRet * option error.

(** The outcome of a handler that talks to the store: the returned value
    and error, with the queries issued, in order. *)
Definition Fit (G : Global) (r : Request)
    : (option FitRet * option error) * list (string * list Arg) :=
  let id := Form_Get r "id" in
  if String.eqb id "" then ((None, Some "missing fit id"), [])
  else
    let q := "SELECT id, km, zkb from killmails where id = $1" in
    match QueryRowContext q [ArgString id] with
    | inr err => ((None, Some err), [(q, [ArgString id])])
    | inl row =>
      let '(v, err) := Fit_answer G row in
      ((Some v, err), [(q, [ArgString id])])
    end.

End Handlers.

(** ** The store executor *)

Module Store.

(** Modelled from the spec: the store executor, an external collaborator
    that supports array-containment predicates and bounded, ordered result
    sets.  A stored configuration carries the row that is selected and its
    searchable component set [items]; the clauses are a conjunction, a
    group clause is the disjunction of its members. *)
Record Config := { row : FitRow.t; items : list Z }.

Definition contains_arg (its : list Z) (a : option Arg) : bool :=
  match a with
  | Some (ArgInt v) | Some (ArgInt32 v) => bool_decide (v ∈ its)
  | Some (ArgArray l) => forallb (fun v => bool_decide (v ∈ its)) l
  | _ => false
  end.

(** [$n] is the [n]-th parameter, counted from 1. *)
Definition param (args : list Arg) (n : nat) : option Arg :=
  match n with
  | O => None
  | S k => args !! k
  end.

Definition holds (args : list Arg) (its : list Z) (c : Clause) : bool :=
  match c with
  | ContainsOne n | ContainsArray n => contains_arg its (param args n)
  | AnyOf ns => existsb (fun n => contains_arg its (param args n)) ns
  end.

Definition selects (args : list Arg) (cs : list Clause) (c : Config) : bool :=
  forallb (holds args (items c)) cs.

(** [ORDER BY killmail DESC] *)
Fixpoint insert_desc (f : FitRow.t) (l : list FitRow.t) : list FitRow.t :=
  match l with
  | [] => [f]
  | g :: l' =>
    if (FitRow.Killmail g <=? FitRow.Killmail f)%Z then f :: l
    else g :: insert_desc f l'
  end.

Definition order_desc (l : list FitRow.t) : list FitRow.t :=
  fold_right insert_desc [] l.

Definition SelectContext (db : list Config) : Executor :=
  fun _ args cs =>
    (take 100 (order_desc (map row (List.filter (selects args cs) db))), None).

(** An executor over the stored configurations [db] that may fail, or
    return fewer rows, but returns only rows of configurations that the
    predicate selects. *)
Definition sound (db : list Config) (X : Executor) : Prop :=
  forall text args cs f,
    In f (fst (X text args cs)) ->
    exists c, In c db /\ row c = f /\ selects args cs c = true.

End Store.

(** ** The response pipeline *)

Module http.

(** [http.Header]: the values under each name.  The names written in
    [web.go] are in canonical form, as are those of a request the server
    has read, so that names are compared as they stand. *)
Definition Header_Set (k v : string) (h : gmap string (list string))
    : gmap string (list string) := <[k := [v]]> h.

Definition Header_Add (k v : string) (h : gmap string (list string))
    : gmap string (list string) := <[k := default [] (h !! k) ++ [v]]> h.

Definition Header_Get (k : string) (h : gmap string (list string)) : string :=
  match default [] (h !! k) with
  | [] => ""
  | v :: _ => v
  end.

Definition Header_Del (k : string) (h : gmap string (list string))
    : gmap string (list string) := delete k h.

(** What [Wrap] and [writeDataGzip] read of a [*http.Request]. *)
Record Request := {
  Method : string;
  Header : gmap string (list string);
  RawQuery : string
}.

(** An [http.ResponseWriter]: the header map, the status once it is
    written, and the bytes written. *)
Record Response := {
  header : gmap string (list string);
  status : option Z;
  body : string
}.

Definition with_header (g : gmap string (list string) -> gmap string (list string))
    (w : Response) : Response :=
  {| header := g (header w); status := status w; body := body w |}.

(** [w.WriteHeader(code)]: a second call is ignored. *)
Definition WriteHeader (code : Z) (w : Response) : Response :=
  match status w with
  | Some _ => w
  | None => {| header := header w; status := Some code; body := body w |}
  end.

(** [w.Write(data)]: writes the status 200 first if none was written. *)
Definition Write (data : string) (w : Response) : Response :=
  let w := WriteHeader 200 w in
  {| header := header w; status := status w; body := body w +:+ data |}.

(** [http.Error(w, error, code)] *)
Definition Error (w : Response) (msg : string) (code : Z) : Response :=
  let w := with_header (Header_Del "Content-Length") w in
  let w := with_header (Header_Set "Content-Type" "text/plain; charset=utf-8") w in
  let w := with_header (Header_Set "X-Content-Type-Options" "nosniff") w in
  Write (msg +:+ String (byte_of 10) EmptyString) (WriteHeader code w).

End http.

(** The run of a [gzip.Writer] over a [bytes.Buffer]: the error of [Write],
    the error of [Close], or the bytes of the buffer. *)
Inductive GzipRun :=
| GzipWriteErr (e : error)
| GzipCloseErr (e : error)
| GzipOk (bytes : string).

(** A metric of [servertiming.Header]. *)
Record Metric := { Metric_Name : string; Metric_Duration : Z }.

Section Pipeline.

(** The values the handlers return as [interface{}]. *)
Variable Value : Type.

(** [json.Marshal], and [gzip.NewWriterLevel(&gz, gzip.BestCompression)]
    fed the data and closed. *)
Variable json_Marshal : Value -> string + error.
Variable gzip_BestCompression : string -> GzipRun.

(** [url.ParseQuery] and [url.Values.Encode]. *)
Variable Values : Type.
Variable url_ParseQuery : string -> option Values.
Variable Values_Encode : Values -> string.

(** The metrics in [sh] when the handler has returned (the metric "req" of
    [Wrap] and those of the handler, with the durations the clock gave),
    and [sh.String()]. *)
Variable timed : http.Request -> list Metric.
Variable Header_String : list Metric -> string.

(** [errors.Wrap(err, message).Error()] *)
Definition errors_Wrap (err : error) (message : string) : error :=
  message +:+ ": " +:+ err.

Definition resultToBytes (res : Value) : (string * string) + error :=
  match json_Marshal res with
  | inr err => inr (errors_Wrap err "json marshal")
  | inl data =>
    match gzip_BestCompression data with
    | GzipWriteErr err => inr (errors_Wrap err "gzip")
    | GzipCloseErr err => inr (errors_Wrap err "gzip close")
    | GzipOk gz => inl (data, gz)
    end
  end.

Definition writeDataGzip (w : http.Response) (r : http.Request)
    (data gzip : string) : http.Response :=
  let w := http.with_header (http.Header_Add "Content-Type" "application/json") w in
  let w := http.with_header (http.Header_Add "Cache-Control" "max-age=3600") w in
  if strings.Contains (http.Header_Get "Accept-Encoding" (http.Header r)) "gzip" then
    http.Write gzip (http.with_header (http.Header_Add "Content-Encoding" "gzip") w)
  else http.Write data w.

(** The request as the handler sees it: [Wrap] re-encodes the query when
    it parses. *)
Definition requery (r : http.Request) : http.Request :=
  match url_ParseQuery (http.RawQuery r) with
  | Some v => {| http.Method := http.Method r; http.Header := http.Header r;
                 http.RawQuery := Values_Encode v |}
  | None => r
  end.

(** The function [Wrap] returns, on a response writer [w].  What it prints
    to the standard output and to the log, and the deadline it puts on the
    context, are not part of the response and are left out. *)
Definition Wrap (f : http.Request -> Value * option error)
    (w : http.Response) (r : http.Request) : http.Response :=
  if String.eqb (http.Method r) "OPTIONS" then
    let w := http.with_header (http.Header_Set "Access-Control-Allow-Origin" "*") w in
    let w := http.with_header (http.Header_Set "Access-Control-Allow-Methods" "GET") w in
    let w := http.with_header (http.Header_Set "Access-Control-Allow-Headers" "Content-Type") w in
    let w := http.with_header (http.Header_Set "Access-Control-Max-Age" "3600") w in
    http.WriteHeader 204 w
  else
    let w := http.with_header (http.Header_Set "Access-Control-Allow-Origin" "*") w in
    let r := requery r in
    let '(res, err) := f r in
    let w :=
      if (0 <? length (timed r))%nat
      then http.with_header (http.Header_Add "Server-Timing" (Header_String (timed r))) w
      else w in
    match err with
    | Some e => http.Error w e 500
    | None =>
      match resultToBytes res with
      | inr e => http.Error w e 500
      | inl (data, gzip) => writeDataGzip w r data gzip
      end
    end.

(** What the handler and [resultToBytes] leave [Wrap] with: the two forms
    of the body, or the error to report. *)
Definition outcome (f : http.Request -> Value * option error)
    (r : http.Request) : (string * string) + error :=
  let '(res, err) := f (requery r) in
  match err with
  | Some e => inr e
  | None => resultToBytes res
  end.

End Pipeline.

(** [r.ParseForm()] of net/http, as a function of the request, makes a
    handler of this development one of [Wrap]. *)
Definition as_handler {A : Type} (ParseForm : http.Request -> gmap string (list string))
    (h : Request -> A) : http.Request -> A :=
  fun r => h {| Form := ParseForm r |}.

(** * Vocabulary of the properties *)

(** [t] occurs in [s] as a contiguous run of bytes. *)
Definition Substring (t s : string) : Prop :=
  exists pre post : string, s = pre +:+ t +:+ post.

(** ** Search *)

(** The result a matching group contributes. *)
Definition group_result (p : Z * Group.t) : Result.t :=
  {| Result.Type_ := "group"; Result.Name := Group.Name p.2; Result.ID := p.1 |}.

Definition group_matches (To_LowerCase : Z -> Z) (search : string) (fields : list string)
    (p : Z * Group.t) : Prop :=
  match_ search fields (ToLower To_LowerCase (Group.Name p.2)) = true.

#[global] Instance group_matches_dec To_LowerCase search fields p :
  Decision (group_matches To_LowerCase search fields p).
Proof. unfold group_matches. apply _. Defined.

(** The results of the two phases of [Search] for a request: what the scan
    of the groups leaves, and what the scan of the entities appends to it. *)
Definition group_phase (To_LowerCase : Z -> Z) (sigma : Scheduler) (G : Global) (r : Request) : list Result.t :=
  let search := normalize To_LowerCase (Form_Get r "term") in
  search_groups To_LowerCase search (strings.Fields search)
    (range_Groups sigma (Groups G)) [].

Definition entity_phase (To_LowerCase : Z -> Z) (sigma : Scheduler) (G : Global) (r : Request) : list Result.t :=
  let search := normalize To_LowerCase (Form_Get r "term") in
  drop (length (group_phase To_LowerCase sigma G r))
    (search_items G search (strings.Fields search)
       (range_Items sigma 0 (Items G)) (group_phase To_LowerCase sigma G r)).

(** ** Fits *)

(** The members of a group in the order of one [range], and what the inner
    loop of the group facet makes of them. *)
Definition members (gid : Z) (l : list (Z * Item.t)) : list Z :=
  map fst (List.filter (fun p => (Item.Group p.2 =? gid)%Z) l).

(** One step of the group loop, for a group identifier greater than 0. *)
Definition group_step (sigma : Scheduler) (G : Global) (gid : Z) (b : Build) : Build :=
  let ids := members gid (range_Items sigma (ranges b) (Items G)) in
  let new := seq (S (length (args b))) (length ids) in
  let g := Groups_at G gid in
  {| sb := sb b +:+ render_clause (AnyOf new);
     args := args b ++ map ArgInt32 ids;
     Filter := echo "group"
                 {| Item.ID := Group.ID g; Item.Name := Group.Name g;
                    Item.Lower := ""; Item.Group := 0 |} (Filter b);
     clauses := clauses b ++ [AnyOf new];
     ranges := S (ranges b) |}.

Definition is_AnyOf (c : Clause) : bool :=
  match c with AnyOf _ => true | _ => false end.
Definition is_ContainsArray (c : Clause) : bool :=
  match c with ContainsArray _ => true | _ => false end.
Definition is_ArgArray (a : Arg) : bool :=
  match a with ArgArray _ => true | _ => false end.
Definition is_ArgInt32 (a : Arg) : bool :=
  match a with ArgInt32 _ => true | _ => false end.

(** The positive identifiers of a facet, in the order given, repeats kept. *)
Definition positive_ids (vals : list string) : list Z :=
  List.filter (fun z => (0 <? z)%Z) (map Atoi vals).

Definition echo_all (key : string) (xs : list Item.t)
    (F : gmap string (list Item.t)) : gmap string (list Item.t) :=
  fold_left (fun F x => echo key x F) xs F.

(** The builder before the closing text is written. *)
Definition Fits_where (sigma : Scheduler) (G : Global) (r : Request) : Build :=
  group_facet sigma G r
    (item_facet G r
       (ship_facet G r
          {| sb := select_sql; args := []; Filter := ∅; clauses := []; ranges := 0 |})).

(** An entity stays in a slot list iff its group is not a charge group. *)
Definition kept (ChargeCategories : gset Z) (G : Global) (item : Item.t) : bool :=
  negb (IsCharge ChargeCategories (Groups_at G (Item.Group item))).

(** The parameter numbers a clause refers to, in the order written. *)
Definition clause_params (c : Clause) : list nat :=
  match c with
  | ContainsOne n | ContainsArray n => [n]
  | AnyOf ns => ns
  end.

(** The builder numbers its placeholders 1, 2, ... as it binds. *)
Definition numbered (b : Build) : Prop :=
  concat (map clause_params (clauses b)) = seq 1 (length (args b)).

Definition is_ContainsOne (c : Clause) : bool :=
  match c with ContainsOne _ => true | _ => false end.
Definition is_ArgInt (a : Arg) : bool :=
  match a with ArgInt _ => true | _ => false end.

(** The entry of the echo for a group: [Item{Name: g.Name, ID: g.ID}]. *)
Definition group_echo (g : Group.t) : Item.t :=
  {| Item.ID := Group.ID g; Item.Name := Group.Name g; Item.Lower := ""; Item.Group := 0 |}.

(** The identifiers of the entities of group [gid] in the catalog, in the
    order of the keys. *)
Definition catalog_members (G : Global) (gid : Z) : list Z :=
  members gid (map_to_list (Items G)).

Definition maxInt64 : Z := 9223372036854775807.

(** What a bound parameter of [Fits] may be: a positive [int], a non-empty
    array of positive [int]s, or the [int32] key of a catalog entity. *)
Definition arg_ok (G : Global) (a : Arg) : Prop :=
  match a with
  | ArgInt v => (0 < v <= maxInt64)%Z
  | ArgArray l => l <> [] /\ Forall (fun v => (0 < v <= maxInt64)%Z) l
  | ArgInt32 id => is_Some (Items G !! id)
  | ArgString _ => False
  end.

(** The clause [c] written for the group value [g] binds, in some order,
    the entities of the group [int32 g] and nothing else. *)
Definition binds (G : Global) (args : list Arg) (g : Z) (c : Clause) : Prop :=
  exists ns ids,
    c = AnyOf ns
    /\ map (Store.param args) ns = map (fun id => Some (ArgInt32 id)) ids
    /\ ids ≡ₚ catalog_members G (int32 g).

(** The clause and the parameter of the primary-entity facet and of the
    component-entity facet, [n] parameters being bound before the latter. *)
Definition ship_clause (ship : Z) : list Clause :=
  if (0 <? ship)%Z then [ContainsOne 1] else [].
Definition ship_arg (ship : Z) : list Arg :=
  if (0 <? ship)%Z then [ArgInt ship] else [].
Definition item_clause (n : nat) (items : list Z) : list Clause :=
  match items with [] => [] | _ => [ContainsArray (S n)] end.
Definition item_arg (items : list Z) : list Arg :=
  match items with [] => [] | _ => [ArgArray items] end.

(** The result a matching entity contributes, if its category has a type. *)
Definition item_hit (G : Global) (search : string) (fields : list string)
    (p : Z * Item.t) : option Result.t :=
  if match_ search fields (Item.Lower p.2) then
    let typ := searchCategories (Group.Category (Groups_at G (Item.Group p.2))) in
    if String.eqb typ "" then None
    else Some {| Result.Type_ := typ; Result.Name := Item.Name p.2; Result.ID := p.1 |}
  else None.

(** ** Concrete catalogs and requests *)

Definition e_acute : string :=
  String (byte_of 195) (String (byte_of 169) EmptyString).

Definition req (l : list (string * list string)) : Request :=
  {| Form := list_to_map l |}.

(** Two frigates in their group. *)
Definition frigates : Global :=
  {| Items := list_to_map
       [(5%Z, {| Item.ID := 5; Item.Name := "Rifter"; Item.Lower := "rifter";
                 Item.Group := 25 |});
        (7%Z, {| Item.ID := 7; Item.Name := "Slasher"; Item.Lower := "slasher";
                 Item.Group := 25 |})];
     Groups := {[ 25%Z := {| Group.ID := 25; Group.Name := "Frigate";
                             Group.Category := 6 |} ]} |}.

(** A catalog of 51 ships named alike, in one group. *)
Definition ships51 : Global :=
  {| Items := list_to_map
       (map (fun i => (i, {| Item.ID := i; Item.Name := "Abc"; Item.Lower := "abc";
                             Item.Group := 1 |})) (seqZ 1 51));
     Groups := {[ 1%Z := {| Group.ID := 1; Group.Name := "Hull"; Group.Category := 6 |} ]} |}.

(** Two modules and a charge: group 20 is of the charge category 8. *)
Definition modules : Global :=
  {| Items := list_to_map
       [(100%Z, {| Item.ID := 100; Item.Name := "Autocannon"; Item.Lower := "autocannon";
                   Item.Group := 10 |});
        (200%Z, {| Item.ID := 200; Item.Name := "EMP S"; Item.Lower := "emp s";
                   Item.Group := 20 |})];
     Groups := list_to_map
       [(10%Z, {| Group.ID := 10; Group.Name := "Projectile Weapon"; Group.Category := 7 |});
        (20%Z, {| Group.ID := 20; Group.Name := "Projectile Ammo"; Group.Category := 8 |})] |}.

(** Reads the two raw values used below; every other input leaves the
    slice as it is. *)
Definition toy_Unmarshal (raw : string) (ids : list Z) : list Z :=
  if String.eqb raw "[100,200]" then [100%Z; 200%Z]
  else if String.eqb raw "[]" then []
  else ids.

(** A pipeline to run [Wrap] on: a marshaller that writes [null] for
    every value, a compressor that tags its input, a query parser that
    keeps the query, one metric, and a form made of the query alone. *)
Definition toy_Marshal {A : Type} (_ : A) : string + error := inl "null".
Definition toy_gzip (data : string) : GzipRun := GzipOk ("gz:" +:+ data).
Definition toy_timed (_ : http.Request) : list Metric :=
  [{| Metric_Name := "req"; Metric_Duration := 0 |}].
Definition toy_String (_ : list Metric) : string := "req;dur=0".
Definition toy_ParseForm (key : string) (r : http.Request) : gmap string (list string) :=
  match http.RawQuery r with
  | EmptyString => ∅
  | q => {[ key := [q] ]}
  end.
Definition fresh : http.Response :=
  {| http.header := ∅; http.status := None; http.body := "" |}.
Definition get (accept : list string) (query : string) : http.Request :=
  {| http.Method := "GET";
     http.Header := match accept with [] => ∅ | _ => {[ "Accept-Encoding" := accept ]} end;
     http.RawQuery := query |}.

(** * Properties *)

(** ** Byte strings *)

#[local] Arguments String.append !_ _ : simpl nomatch.

Lemma string_app_assoc (a b c : string) : (a +:+ b) +:+ c = a +:+ (b +:+ c).
Proof. induction a as [|x a IH]; simpl; [reflexivity | now rewrite IH]. Qed.

Lemma string_app_nil_r (a : string) : a +:+ "" = a.
Proof. induction a as [|x a IH]; simpl; [reflexivity | now rewrite IH]. Qed.

Lemma HasPrefix_true (s p : string) :
  strings.HasPrefix s p = true <-> exists post, s = p +:+ post.
Proof.
  revert s; induction p as [|c p IH]; intros s; simpl.
  - split; [intros _; now exists s | reflexivity].
  - destruct s as [|d s].
    + split; [discriminate | intros [post H]; discriminate].
    + destruct (Ascii.eqb_spec d c) as [->|Hne].
      * rewrite IH. split; intros [post H]; exists post.
        -- now rewrite H.
        -- now injection H.
      * split; [discriminate | intros [post H]; injection H; intros; contradiction].
Qed.

Lemma Contains_true (s t : string) :
  strings.Contains s t = true <-> Substring t s.
Proof.
  induction s as [|c s IH].
  - simpl. rewrite orb_false_r, HasPrefix_true. split.
    + intros [post H]. now exists "", post.
    + intros ([|d pre] & post & H); [now exists post | discriminate].
  - cbn [strings.Contains]. rewrite orb_true_iff, HasPrefix_true, IH. split.
    + intros [[post H] | (pre & post & H)].
      * now exists "", post.
      * exists (String c pre), post. simpl. now rewrite H.
    + intros ([|d pre] & post & H).
      * left. now exists post.
      * right. exists pre, post. simpl in H. now injection H.
Qed.

Lemma containsAll_true (s : string) (fields : list string) :
  containsAll s fields = true <->
  (forall term, In term fields -> Substring term s).
Proof.
  induction fields as [|t fields IH]; simpl.
  - split; [intros _ ? [] | reflexivity].
  - destruct (strings.Contains s t) eqn:E; simpl.
    + rewrite IH. apply Contains_true in E. split.
      * intros H term [<-|Hin]; auto.
      * intros H term Hin. apply H. now right.
    + split; [discriminate |].
      intros H. assert (Hs : Substring t s) by (apply H; now left).
      apply Contains_true in Hs. congruence.
Qed.

(** C2. For every search term [T] and candidate [S], the closure [match] of
    [Search], run with [fields = strings.Fields(T)], accepts [S] if and only
    if [S] contains [T] as a contiguous substring or contains every
    whitespace-separated subterm of [T] as a substring; the term
    "warp core" matches "warp core stabilizer" and "core warp booster" and
    does not match "warp". *)
Theorem match_two_tier :
  (forall T S : string,
     match_ T (strings.Fields T) S = true <->
     Substring T S \/
     (forall term, In term (strings.Fields T) -> Substring term S))
  /\ strings.Fields "warp core" = ["warp"; "core"]
  /\ match_ "warp core" (strings.Fields "warp core") "warp core stabilizer" = true
  /\ match_ "warp core" (strings.Fields "warp core") "core warp booster" = true
  /\ match_ "warp core" (strings.Fields "warp core") "warp" = false.
Proof.
  split; [| repeat split; vm_compute; reflexivity].
  intros T S. unfold match_.
  destruct (strings.Contains S T) eqn:E.
  - apply Contains_true in E. split; auto.
  - rewrite containsAll_true. split; [auto |].
    intros [H | H]; [| exact H].
    apply Contains_true in H. congruence.
Qed.

(** ** Search: the two scans *)

Section SearchScans.

Variable To_LowerCase : Z -> Z.

Lemma search_groups_all search fields l results :
  search_groups To_LowerCase search fields l results =
  results ++ map group_result (filter (group_matches To_LowerCase search fields) l).
Proof.
  revert results; induction l as [|[id g] l IH]; intros results; simpl.
  - now rewrite app_nil_r.
  - rewrite filter_cons.
    destruct (decide (group_matches To_LowerCase search fields (id, g))) as [E|E];
      unfold group_matches in E; simpl in E.
    + rewrite E. simpl. rewrite IH, <- app_assoc. reflexivity.
    + apply not_true_is_false in E. rewrite E. simpl. apply IH.
Qed.

Lemma search_items_cap G search fields l results :
  exists eres,
    search_items G search fields l results = results ++ eres
    /\ length eres <= Nat.max 1 (51 - length results).
Proof.
  revert results; induction l as [|[id item] l IH]; intros results; simpl.
  - exists []. rewrite app_nil_r. split; [reflexivity | simpl; lia].
  - destruct (match_ search fields (Item.Lower item)); simpl; [| apply IH].
    destruct (String.eqb _ ""); simpl.
    + destruct (Nat.ltb_spec 50 (length results)).
      * exists []. rewrite app_nil_r. split; [reflexivity | simpl; lia].
      * apply IH.
    + match goal with |- context [results ++ [?x]] => set (hit := x) end.
      destruct (Nat.ltb_spec 50 (length (results ++ [hit]))) as [Hlt|Hge].
      * exists [hit]. split; [reflexivity | simpl; lia].
      * destruct (IH (results ++ [hit])) as (eres & -> & Hlen).
        exists (hit :: eres). rewrite <- app_assoc. split; [reflexivity |].
        rewrite length_app in Hlen, Hge. simpl in *. lia.
Qed.

Lemma Search_unfold sigma G r :
  Search To_LowerCase sigma G r =
  let search := normalize To_LowerCase (Form_Get r "term") in
  if (String.length search <? 3)%nat then (None, None)
  else (Some {| SearchRet.Search := search;
                SearchRet.Results := group_phase To_LowerCase sigma G r ++ entity_phase To_LowerCase sigma G r |},
        None).
Proof.
  unfold Search, entity_phase, group_phase. cbv zeta.
  destruct (_ <? 3)%nat; [reflexivity |].
  match goal with
  | |- context [search_items ?G ?s ?f ?l ?res] =>
    destruct (search_items_cap G s f l res) as (eres & -> & _)
  end.
  now rewrite drop_app_length.
Qed.

Lemma entity_phase_cap sigma G r :
  length (entity_phase To_LowerCase sigma G r) <= Nat.max 1 (51 - length (group_phase To_LowerCase sigma G r)).
Proof.
  unfold entity_phase. cbv zeta.
  match goal with
  | |- context [search_items ?G ?s ?f ?l ?res] =>
    destruct (search_items_cap G s f l res) as (eres & -> & H)
  end.
  now rewrite drop_app_length.
Qed.

Lemma group_phase_all sigma G r :
  let search := normalize To_LowerCase (Form_Get r "term") in
  group_phase To_LowerCase sigma G r ≡ₚ
  map group_result
    (filter (group_matches To_LowerCase search (strings.Fields search)) (map_to_list (Groups G))).
Proof.
  unfold group_phase. cbv zeta. rewrite search_groups_all. simpl.
  now rewrite (range_Groups_perm sigma (Groups G)).
Qed.

Lemma group_phase_complete sigma G r id g :
  let search := normalize To_LowerCase (Form_Get r "term") in
  Groups G !! id = Some g ->
  match_ search (strings.Fields search) (ToLower To_LowerCase (Group.Name g)) = true ->
  group_result (id, g) ∈ group_phase To_LowerCase sigma G r.
Proof.
  intros search Hg Hm. rewrite (group_phase_all sigma G r).
  apply list_elem_of_fmap_2. apply list_elem_of_filter. split; [exact Hm |].
  now apply elem_of_map_to_list.
Qed.

End SearchScans.

(** ** Search: the claims *)

(** C3, as stated, fails: with no matching group and 51 matching ships the
    scan of the entities contributes 51 results, not at most 50. *)
Lemma entity_phase_51 :
  ~ length (entity_phase unicode.latin1_LowerCase key_order ships51
              (req [("term", ["abc"])])) <= 50.
Proof. vm_compute. lia. Qed.

(** C3 (amended). For every search that is not cut short, the results are
    those of the scan of the groups followed by those of the scan of the
    entities; the scan of the entities stops once the accumulated count
    exceeds 50, so it contributes at most 51 results (at most
    [max 1 (51 - g)] after [g] group results); the scan of the groups is
    never cut: its results are, up to order, those of all matching groups
    of the catalog. *)
Theorem search_entity_cap (To_LowerCase : Z -> Z) (sigma : Scheduler)
    (G : Global) (r : Request) (ret : SearchRet.t) :
  Search To_LowerCase sigma G r = (Some ret, None) ->
  let search := normalize To_LowerCase (Form_Get r "term") in
  let gres := group_phase To_LowerCase sigma G r in
  let eres := entity_phase To_LowerCase sigma G r in
  SearchRet.Results ret = gres ++ eres
  /\ length eres <= Nat.max 1 (51 - length gres)
  /\ length eres <= 51
  /\ gres ≡ₚ map group_result
               (filter (group_matches To_LowerCase search (strings.Fields search))
                       (map_to_list (Groups G))).
Proof.
  intros H search gres eres. rewrite Search_unfold in H. cbv zeta in H.
  destruct (_ <? 3)%nat; [discriminate |].
  injection H as <-. simpl.
  pose proof (entity_phase_cap To_LowerCase sigma G r) as Hcap.
  repeat split; [exact Hcap | fold gres eres in Hcap; lia |].
  apply group_phase_all.
Qed.

Lemma search_entity_cap_witness :
  let r := req [("term", [" RIF"])] in
  let ret := {| SearchRet.Search := "rif";
                SearchRet.Results :=
                  [{| Result.Type_ := "ship"; Result.Name := "Rifter"; Result.ID := 5 |}] |} in
  Search unicode.latin1_LowerCase key_order frigates r = (Some ret, None)
  /\ length (entity_phase unicode.latin1_LowerCase key_order frigates r) <= 51.
Proof.
  intros r ret.
  assert (H : Search unicode.latin1_LowerCase key_order frigates r = (Some ret, None))
    by (vm_compute; reflexivity).
  split; [exact H |].
  destruct (search_entity_cap unicode.latin1_LowerCase key_order frigates r ret H)
    as (_ & _ & H51 & _).
  exact H51.
Defined.

(** C4, as stated, fails twice: for the two-byte term "ab" the handler
    returns the nil interface, not an empty result set with the term
    echoed; and the two-character term "éé" is not turned away at all. *)
Lemma short_term_not_echoed :
  (utf8.RuneCountInString (strings.TrimSpace "ab") < 3
   /\ Search unicode.latin1_LowerCase key_order frigates (req [("term", ["ab"])])
      <> (Some {| SearchRet.Search := normalize unicode.latin1_LowerCase "ab";
                  SearchRet.Results := [] |}, None))
  /\ (utf8.RuneCountInString (strings.TrimSpace (e_acute +:+ e_acute)) < 3
      /\ Search unicode.latin1_LowerCase key_order frigates
           (req [("term", [e_acute +:+ e_acute])])
         <> (None, None)).
Proof.
  repeat split; try (vm_compute; lia); vm_compute; discriminate.
Qed.

(** C4 (amended). For every raw search term whose normalized (trimmed,
    lowercased) form is shorter than 3 bytes, [Search] returns the nil
    result with a nil error (neither a result set nor the term is
    returned), whatever the catalog and the order of its scans: the
    catalog is not read. *)
Theorem short_term_nil (To_LowerCase : Z -> Z) (r : Request) :
  String.length (normalize To_LowerCase (Form_Get r "term")) < 3 ->
  forall (sigma : Scheduler) (G : Global),
    Search To_LowerCase sigma G r = (None, None).
Proof.
  intros H sigma G. unfold Search. cbv zeta.
  destruct (Nat.ltb_spec (String.length (normalize To_LowerCase (Form_Get r "term"))) 3);
    [reflexivity | lia].
Qed.

Lemma short_term_nil_witness :
  String.length (normalize unicode.latin1_LowerCase (Form_Get (req [("term", [" Ab "])]) "term")) < 3
  /\ Search unicode.latin1_LowerCase key_order frigates (req [("term", [" Ab "])])
     = (None, None).
Proof.
  assert (H : String.length (normalize unicode.latin1_LowerCase
                               (Form_Get (req [("term", [" Ab "])]) "term")) < 3)
    by (vm_compute; lia).
  split; [exact H |].
  exact (short_term_nil unicode.latin1_LowerCase (req [("term", [" Ab "])]) H
           key_order frigates).
Defined.

Lemma normalize_e_acute (To_LowerCase : Z -> Z) :
  To_LowerCase 233%Z = 233%Z ->
  normalize To_LowerCase (e_acute +:+ e_acute) = e_acute +:+ e_acute.
Proof.
  intros H. unfold normalize, ToLower.
  replace (strings.TrimSpace (e_acute +:+ e_acute)) with (e_acute +:+ e_acute)
    by (vm_compute; reflexivity).
  unfold strings.ToLower.
  replace (strings.isASCII (e_acute +:+ e_acute)) with false by (vm_compute; reflexivity).
  unfold strings.Map.
  replace (utf8.spans (e_acute +:+ e_acute)) with [(233%Z, e_acute); (233%Z, e_acute)]
    by (vm_compute; reflexivity).
  cbn [fold_right fst]. unfold unicode.ToLower.
  replace (233 <=? unicode.MaxASCII)%Z with false by reflexivity.
  rewrite H. vm_compute. reflexivity.
Qed.

(** C10. The minimum of 3 is taken on the byte length of the normalized
    term: the term "éé" has two characters and four bytes; provided the
    case table leaves é (U+00E9) unchanged, [Search] does not turn it away:
    it returns a result whose term is "éé" and whose results are those of
    the scans of the groups and of the entities, so that every group whose
    lowercased name contains "éé" is among them. *)
Theorem short_term_counts_bytes (To_LowerCase : Z -> Z) :
  To_LowerCase 233%Z = 233%Z ->
  let raw := e_acute +:+ e_acute in
  let r := req [("term", [raw])] in
  utf8.RuneCountInString (normalize To_LowerCase raw) = 2
  /\ String.length (normalize To_LowerCase raw) = 4
  /\ forall (sigma : Scheduler) (G : Global),
       Search To_LowerCase sigma G r =
         (Some {| SearchRet.Search := raw;
                  SearchRet.Results := group_phase To_LowerCase sigma G r
                                       ++ entity_phase To_LowerCase sigma G r |}, None)
       /\ forall id g,
            Groups G !! id = Some g ->
            Substring raw (ToLower To_LowerCase (Group.Name g)) ->
            group_result (id, g) ∈ group_phase To_LowerCase sigma G r.
Proof.
  intros H raw r.
  assert (Hraw : normalize To_LowerCase raw = raw)
    by (apply normalize_e_acute; exact H).
  assert (Hn : normalize To_LowerCase (Form_Get r "term") = raw)
    by (replace (Form_Get r "term") with raw by (vm_compute; reflexivity);
        exact Hraw).
  rewrite Hraw.
  split; [vm_compute; reflexivity |].
  split; [vm_compute; reflexivity |].
  intros sigma G. split.
  - rewrite Search_unfold. cbv zeta. rewrite Hn. reflexivity.
  - intros id g Hg Hs. apply group_phase_complete; [exact Hg |].
    rewrite Hn. unfold match_. apply Contains_true in Hs. now rewrite Hs.
Qed.

Lemma short_term_counts_bytes_witness :
  unicode.latin1_LowerCase 233%Z = 233%Z
  /\ String.length (normalize unicode.latin1_LowerCase (e_acute +:+ e_acute)) = 4.
Proof.
  assert (H : unicode.latin1_LowerCase 233%Z = 233%Z) by reflexivity.
  split; [exact H |].
  destruct (short_term_counts_bytes unicode.latin1_LowerCase H) as (_ & H4 & _).
  exact H4.
Defined.

(** ** Fits: the predicate builder *)

Lemma render_clauses_app_list (cs ds : list Clause) :
  render_clauses (cs ++ ds) = render_clauses cs +:+ render_clauses ds.
Proof.
  induction cs as [|c cs IH]; cbn [app render_clauses]; [reflexivity |].
  now rewrite IH, string_app_assoc.
Qed.

Lemma render_clauses_app (cs : list Clause) (c : Clause) :
  render_clauses (cs ++ [c]) = render_clauses cs +:+ render_clause c.
Proof.
  rewrite render_clauses_app_list. cbn [render_clauses].
  now rewrite string_app_nil_r.
Qed.

Lemma member_loop_spec gid l or text args0 ns :
  member_loop gid l or (text, args0, ns) =
  let ids := members gid l in
  let new := seq (S (length args0)) (length ids) in
  (text +:+ render_members or new, args0 ++ map ArgInt32 ids, ns ++ new).
Proof.
  revert or text args0 ns; induction l as [|[id item] l IH]; intros; simpl.
  - now rewrite string_app_nil_r, !app_nil_r.
  - unfold members. simpl. destruct (Item.Group item =? gid)%Z; simpl.
    + rewrite IH. cbv zeta. fold (members gid l).
      rewrite length_app. simpl. rewrite Nat.add_1_r.
      rewrite <- !app_assoc. simpl.
      now rewrite !string_app_assoc.
    + apply IH.
Qed.

Lemma filter_none {A : Type} (f : A -> bool) (l : list A) :
  (forall x, x ∈ l -> f x = false) -> List.filter f l = [].
Proof.
  induction l as [|x l IH]; intros H; simpl; [reflexivity |].
  rewrite (H x) by apply list_elem_of_here.
  apply IH. intros y Hy. apply H. now apply list_elem_of_further.
Qed.

Lemma members_none sigma G gid n :
  (forall id item, Items G !! id = Some item -> Item.Group item <> gid) ->
  members gid (range_Items sigma n (Items G)) = [].
Proof.
  intros H. unfold members. rewrite filter_none; [reflexivity |].
  intros [id item] Hin. rewrite (range_Items_perm sigma n (Items G)) in Hin.
  apply elem_of_map_to_list in Hin. simpl.
  apply Z.eqb_neq. now apply (H id).
Qed.

Lemma group_loop_cons sigma G group vals b :
  group_loop sigma G (group :: vals) b =
  if (Atoi group <=? 0)%Z then group_loop sigma G vals b
  else group_loop sigma G vals (group_step sigma G (int32 (Atoi group)) b).
Proof.
  simpl. destruct (Atoi group <=? 0)%Z; [reflexivity |].
  rewrite member_loop_spec. cbv zeta. unfold group_step. simpl.
  now rewrite !string_app_assoc.
Qed.

(** What the group loop adds: group clauses, [int32] parameters, and
    entries of the echo under "group" only; the text stays the rendering
    of the clauses. *)
Lemma group_loop_adds sigma G vals b :
  exists cs more,
    clauses (group_loop sigma G vals b) = clauses b ++ cs
    /\ Forall (fun c => is_AnyOf c = true) cs
    /\ args (group_loop sigma G vals b) = args b ++ more
    /\ Forall (fun a => is_ArgInt32 a = true) more
    /\ sb (group_loop sigma G vals b) = sb b +:+ render_clauses cs
    /\ (forall key, key <> "group" ->
          Filter (group_loop sigma G vals b) !! key = Filter b !! key).
Proof.
  revert b; induction vals as [|group vals IH]; intros b.
  - exists [], []. cbn [group_loop render_clauses].
    rewrite !app_nil_r, string_app_nil_r.
    split; [reflexivity |]. split; [constructor |].
    split; [reflexivity |]. split; [constructor |].
    split; [reflexivity |]. intros key _. reflexivity.
  - rewrite group_loop_cons. destruct (Atoi group <=? 0)%Z; [apply IH |].
    set (b' := group_step sigma G (int32 (Atoi group)) b).
    destruct (IH b') as (cs & more & Hc & Hcs & Ha & Hmore & Hsb & HF).
    set (ids := members (int32 (Atoi group)) (range_Items sigma (ranges b) (Items G))).
    exists (AnyOf (seq (S (length (args b))) (length ids)) :: cs),
           (map ArgInt32 ids ++ more).
    rewrite Hc, Ha, Hsb. unfold b', group_step. cbn [clauses args sb]. fold ids.
    rewrite <- !app_assoc. cbn [render_clauses app].
    split; [reflexivity |]. split.
    { constructor; [reflexivity | exact Hcs]. }
    split; [reflexivity |]. split.
    { apply Forall_app. split; [| exact Hmore].
      apply Forall_forall. intros a Ha'.
      apply list_elem_of_fmap in Ha' as (? & -> & _). reflexivity. }
    split.
    { now rewrite !string_app_assoc. }
    intros key Hk. rewrite HF by exact Hk. unfold b', group_step, echo.
    cbn [Filter]. now rewrite lookup_insert_ne by congruence.
Qed.

Lemma group_loop_member sigma G vals b group :
  In group vals -> (0 < Atoi group)%Z ->
  (forall id item, Items G !! id = Some item ->
                   Item.Group item <> int32 (Atoi group)) ->
  In (AnyOf []) (clauses (group_loop sigma G vals b)).
Proof.
  intros Hin Hpos Hnone. revert b.
  induction vals as [|v vals IH]; intros b; [destruct Hin |].
  rewrite group_loop_cons. destruct Hin as [->|Hin].
  - destruct (Z.leb_spec (Atoi group) 0); [lia |].
    destruct (group_loop_adds sigma G vals
                (group_step sigma G (int32 (Atoi group)) b)) as (cs & _ & -> & _).
    unfold group_step. cbn [clauses]. rewrite (members_none _ _ _ _ Hnone).
    cbn [length seq].
    apply in_or_app. left. apply in_or_app. right. now left.
  - destruct (Atoi v <=? 0)%Z; now apply IH.
Qed.

Lemma item_loop_spec G vals items F :
  item_loop G vals items F =
  (items ++ positive_ids vals,
   echo_all "item" (map (fun i => Items_at G (int32 i)) (positive_ids vals)) F).
Proof.
  revert items F; induction vals as [|v vals IH]; intros items F; simpl.
  - now rewrite app_nil_r.
  - unfold positive_ids. simpl. fold (positive_ids vals).
    destruct (Z.leb_spec (Atoi v) 0) as [Hle|Hgt].
    + replace (0 <? Atoi v)%Z with false by (symmetry; apply Z.ltb_ge; lia).
      apply IH.
    + replace (0 <? Atoi v)%Z with true by (symmetry; apply Z.ltb_lt; lia).
      rewrite IH. simpl. now rewrite <- app_assoc.
Qed.

Lemma echo_all_lookup key xs F :
  echo_all key xs F !! key =
  match xs with
  | [] => F !! key
  | _ => Some (default [] (F !! key) ++ xs)
  end.
Proof.
  revert F; induction xs as [|x xs IH]; intros F; [reflexivity |].
  simpl. rewrite IH. unfold echo at 1 2. rewrite lookup_insert_eq. simpl.
  destruct xs; [reflexivity |]. now rewrite <- app_assoc.
Qed.

Lemma echo_all_lookup_ne key key' xs F :
  key <> key' -> echo_all key xs F !! key' = F !! key'.
Proof.
  intros Hne. revert F; induction xs as [|x xs IH]; intros F; [reflexivity |].
  simpl. rewrite IH. unfold echo. now rewrite lookup_insert_ne.
Qed.

Lemma group_loop_no_positive sigma G vals b :
  positive_ids vals = [] -> group_loop sigma G vals b = b.
Proof.
  unfold positive_ids. induction vals as [|v vals IH]; intros H; [reflexivity |].
  rewrite group_loop_cons. cbn [map List.filter] in H.
  destruct (Z.ltb_spec 0 (Atoi v)) as [Hlt|Hge]; [discriminate |].
  destruct (Z.leb_spec (Atoi v) 0); [now apply IH | lia].
Qed.

Lemma Fits_build_where sigma G r :
  Fits_build sigma G r =
  let b := Fits_where sigma G r in
  {| sb := sb b +:+ order_limit_sql; args := args b; Filter := Filter b;
     clauses := clauses b; ranges := ranges b |}.
Proof. reflexivity. Qed.

(** The builder after the primary-entity facet: at most one clause, on an
    [int] parameter; nothing under "item" in the echo. *)
Lemma ship_facet_shape G r :
  let b := ship_facet G r {| sb := select_sql; args := []; Filter := ∅;
                             clauses := []; ranges := 0 |} in
  sb b = select_sql +:+ render_clauses (clauses b)
  /\ List.filter is_ContainsArray (clauses b) = []
  /\ List.filter is_ArgArray (args b) = []
  /\ Filter b !! "item" = None.
Proof.
  unfold ship_facet. destruct (0 <? Atoi (Form_Get r "ship"))%Z; cbn [sb args clauses Filter].
  - cbn [app length render_clauses render_clause List.filter is_ContainsArray is_ArgArray].
    rewrite string_app_nil_r. unfold echo.
    rewrite lookup_insert_ne by discriminate. now rewrite lookup_empty.
  - cbn [render_clauses List.filter]. rewrite string_app_nil_r. now rewrite lookup_empty.
Qed.

Lemma item_facet_spec G r b :
  let items := positive_ids (Form_values r "item") in
  item_facet G r b =
  match items with
  | [] => b
  | _ =>
    {| sb := sb b +:+ render_clause (ContainsArray (S (length (args b))));
       args := args b ++ [ArgArray items];
       Filter := echo_all "item" (map (fun i => Items_at G (int32 i)) items) (Filter b);
       clauses := clauses b ++ [ContainsArray (S (length (args b)))];
       ranges := ranges b |}
  end.
Proof.
  unfold item_facet. rewrite item_loop_spec. cbn [app].
  destruct (positive_ids (Form_values r "item")) as [|i items] eqn:E.
  - cbn [length Nat.ltb Nat.leb map echo_all fold_left]. now destruct b.
  - cbn [length Nat.ltb Nat.leb]. rewrite length_app. cbn [length].
    rewrite Nat.add_1_r. reflexivity.
Qed.

Lemma filter_AnyOf_not_array (cs : list Clause) :
  Forall (fun c => is_AnyOf c = true) cs -> List.filter is_ContainsArray cs = [].
Proof.
  intros H. apply filter_none. intros c Hc.
  rewrite Forall_forall in H. specialize (H c Hc). now destruct c.
Qed.

Lemma filter_Int32_not_array (l : list Arg) :
  Forall (fun a => is_ArgInt32 a = true) l -> List.filter is_ArgArray l = [].
Proof.
  intros H. apply filter_none. intros a Ha.
  rewrite Forall_forall in H. specialize (H a Ha). now destruct a.
Qed.

(** The text handed to the store is the rendering of the clauses between
    the two literals. *)
Lemma Fits_build_renders sigma G r :
  sb (Fits_build sigma G r) =
  select_sql +:+ render_clauses (clauses (Fits_build sigma G r)) +:+ order_limit_sql.
Proof.
  rewrite Fits_build_where. cbv zeta. cbn [sb clauses].
  rewrite <- string_app_assoc. f_equal.
  unfold Fits_where, group_facet.
  destruct (ship_facet_shape G r) as (Hs & _).
  set (b1 := ship_facet G r _) in *.
  destruct (group_loop_adds sigma G (Form_values r "group") (item_facet G r b1))
    as (cs & more & -> & _ & _ & _ & -> & _).
  assert (H2 : sb (item_facet G r b1)
               = select_sql +:+ render_clauses (clauses (item_facet G r b1))).
  { rewrite item_facet_spec. cbv zeta.
    destruct (positive_ids (Form_values r "item")); [exact Hs |].
    cbn [sb clauses]. now rewrite render_clauses_app, Hs, string_app_assoc. }
  now rewrite H2, string_app_assoc, render_clauses_app_list.
Qed.

(** ** Fits: the claims on the predicate *)

(** C5. For every request with no facet set (no positive ship, item or
    group identifier), the text handed to the store is the [SELECT] up to
    [WHERE TRUE] followed at once by [ORDER BY killmail DESC LIMIT 100];
    there is no clause and no bound parameter, the echo is empty, and the
    predicate selects every stored configuration. *)
Theorem no_facet_base_predicate (sigma : Scheduler) (G : Global) (r : Request) :
  (Atoi (Form_Get r "ship") <= 0)%Z ->
  positive_ids (Form_values r "item") = [] ->
  positive_ids (Form_values r "group") = [] ->
  let b := Fits_build sigma G r in
  sb b = select_sql +:+ order_limit_sql
  /\ args b = []
  /\ clauses b = []
  /\ Filter b = ∅
  /\ forall cfg, Store.selects (args b) (clauses b) cfg = true.
Proof.
  intros Hship Hitem Hgroup b.
  assert (Hb : Fits_where sigma G r =
               {| sb := select_sql; args := []; Filter := ∅; clauses := []; ranges := 0 |}).
  { unfold Fits_where, group_facet.
    rewrite (group_loop_no_positive _ _ _ _ Hgroup).
    rewrite item_facet_spec. cbv zeta. rewrite Hitem.
    unfold ship_facet.
    destruct (Z.ltb_spec 0 (Atoi (Form_Get r "ship"))); [lia | reflexivity]. }
  unfold b. rewrite Fits_build_where. cbv zeta. rewrite Hb. cbn [sb args clauses Filter].
  repeat split.
Qed.

Lemma no_facet_base_predicate_witness :
  let r := req [("ship", ["0"]); ("item", ["x"; "-3"])] in
  (Atoi (Form_Get r "ship") <= 0)%Z
  /\ positive_ids (Form_values r "item") = []
  /\ positive_ids (Form_values r "group") = []
  /\ sb (Fits_build key_order frigates r) = select_sql +:+ order_limit_sql.
Proof.
  intros r.
  assert (H1 : (Atoi (Form_Get r "ship") <= 0)%Z) by (vm_compute; discriminate).
  assert (H2 : positive_ids (Form_values r "item") = []) by (vm_compute; reflexivity).
  assert (H3 : positive_ids (Form_values r "group") = []) by (vm_compute; reflexivity).
  split; [exact H1 |]. split; [exact H2 |]. split; [exact H3 |].
  destruct (no_facet_base_predicate key_order frigates r H1 H2 H3) as (H & _).
  exact H.
Defined.

(** C8, as stated, fails: for the request [item=5] the echo holds the
    entity 5 under "item". *)
Lemma item_facet_echoed :
  let r := req [("item", ["5"])] in
  positive_ids (Form_values r "item") = [5%Z]
  /\ Filter (Fits_build key_order frigates r) !! "item" <> None
  /\ Filter (Fits_build key_order frigates r) !! "item" = Some [Items_at frigates 5].
Proof. vm_compute. repeat split. discriminate. Qed.

(** C8 (amended). For every request whose component-entity facet holds at
    least one identifier greater than 0 (the others are passed over, order
    and repeats kept), the builder contributes exactly one array
    containment clause, bound to exactly one array parameter that lists
    these identifiers; and each of them, resolved through the catalog, is
    added in order to the echo under "item". *)
Theorem item_facet_one_clause (sigma : Scheduler) (G : Global) (r : Request) :
  let items := positive_ids (Form_values r "item") in
  items <> [] ->
  let b := Fits_build sigma G r in
  exists n,
    List.filter is_ContainsArray (clauses b) = [ContainsArray n]
    /\ Store.param (args b) n = Some (ArgArray items)
    /\ List.filter is_ArgArray (args b) = [ArgArray items]
    /\ Filter b !! "item" = Some (map (fun i => Items_at G (int32 i)) items).
Proof.
  intros items Hne b. unfold b. rewrite Fits_build_where. cbv zeta.
  cbn [clauses args Filter]. unfold Fits_where, group_facet.
  destruct (ship_facet_shape G r) as (_ & Hc1 & Ha1 & HF1).
  set (b1 := ship_facet G r _) in *.
  destruct (group_loop_adds sigma G (Form_values r "group") (item_facet G r b1))
    as (cs & more & -> & Hcs & -> & Hmore & _ & HF).
  rewrite (HF "item") by discriminate.
  rewrite item_facet_spec. cbv zeta. fold items.
  destruct items as [|i items'] eqn:E; [congruence |].
  cbn [clauses args Filter].
  exists (S (length (args b1))).
  rewrite !List.filter_app, Hc1, Ha1.
  rewrite (filter_AnyOf_not_array _ Hcs), (filter_Int32_not_array _ Hmore).
  split; [reflexivity |]. split.
  { cbn [Store.param]. rewrite <- app_assoc.
    rewrite lookup_app_r by lia. now rewrite Nat.sub_diag. }
  split; [reflexivity |].
  rewrite echo_all_lookup, HF1. reflexivity.
Qed.

Lemma item_facet_one_clause_witness :
  let r := req [("ship", ["5"]); ("item", ["7"; "0"; "7"]); ("group", ["25"])] in
  positive_ids (Form_values r "item") <> []
  /\ exists n,
       List.filter is_ContainsArray (clauses (Fits_build key_order frigates r))
         = [ContainsArray n]
       /\ Store.param (args (Fits_build key_order frigates r)) n
         = Some (ArgArray [7%Z; 7%Z]).
Proof.
  intros r.
  assert (H : positive_ids (Form_values r "item") <> []) by (vm_compute; discriminate).
  split; [exact H |].
  destruct (item_facet_one_clause key_order frigates r H) as (n & Hc & Hp & _).
  exists n. split; [exact Hc | exact Hp].
Defined.

Lemma forallb_false_elem {A : Type} (f : A -> bool) (l : list A) (x : A) :
  In x l -> f x = false -> forallb f l = false.
Proof.
  intros Hin Hx. destruct (forallb f l) eqn:E; [| reflexivity].
  rewrite forallb_forall in E. rewrite (E x Hin) in Hx. discriminate.
Qed.

Lemma In_insert_desc (f g : FitRow.t) (l : list FitRow.t) :
  In g (Store.insert_desc f l) -> g = f \/ In g l.
Proof.
  induction l as [|h l IH]; cbn [Store.insert_desc].
  - intros [<-|[]]. now left.
  - destruct (FitRow.Killmail h <=? FitRow.Killmail f)%Z.
    + intros [<-|H]; [now left | now right].
    + intros [<-|H]; [right; now left |].
      destruct (IH H) as [->|H']; [now left | right; now right].
Qed.

Lemma In_order_desc (g : FitRow.t) (l : list FitRow.t) :
  In g (Store.order_desc l) -> In g l.
Proof.
  induction l as [|f l IH]; cbn [Store.order_desc fold_right]; [tauto |].
  intros H. apply In_insert_desc in H as [->|H]; [now left | right; now apply IH].
Qed.

(** The store executor of the specification returns only selected rows,
    at most 100 of them. *)
Lemma SelectContext_sound (db : list Store.Config) :
  Store.sound db (Store.SelectContext db)
  /\ forall text args cs, length (fst (Store.SelectContext db text args cs)) <= 100.
Proof.
  split.
  - intros text args cs f H. unfold Store.SelectContext in H. cbn [fst] in H.
    apply list_elem_of_In, elem_of_take in H as (i & H & _).
    apply list_elem_of_lookup_2, list_elem_of_In, In_order_desc in H.
    apply in_map_iff in H as (c & Hc & H).
    apply filter_In in H as [H Hs]. now exists c.
  - intros text args cs. unfold Store.SelectContext. cbn [fst].
    rewrite length_take. lia.
Qed.

Section EmptyGroup.

Variable ChargeCategories : gset Z.
Variable json_Unmarshal : string -> list Z -> list Z.

(** C1. For every request that names a group (identifier greater than 0)
    with no member in the catalog, the builder writes for it the clause
    with no disjunct, [ AND ()], whatever the other facets; this clause
    holds of no stored configuration, so the predicate selects none, and
    the handler returns no configuration, be it run against the store
    executor of the specification or against any executor that returns
    only rows the predicate selects. *)
Theorem empty_group_selects_nothing (sigma : Scheduler) (G : Global)
    (r : Request) (group : string) :
  In group (Form_values r "group") ->
  (0 < Atoi group)%Z ->
  (forall id item, Items G !! id = Some item ->
                   Item.Group item <> int32 (Atoi group)) ->
  let b := Fits_build sigma G r in
  In (AnyOf []) (clauses b)
  /\ render_clause (AnyOf []) = " AND ()"
  /\ sb b = select_sql +:+ render_clauses (clauses b) +:+ order_limit_sql
  /\ (forall cfg, Store.selects (args b) (clauses b) cfg = false)
  /\ (forall db,
        Fits ChargeCategories json_Unmarshal (Store.SelectContext db) sigma G r
        = ({| FitsRet.Filter := Filter b; FitsRet.Fits := [] |}, None))
  /\ (forall db X,
        Store.sound db X ->
        FitsRet.Fits (fst (Fits ChargeCategories json_Unmarshal X sigma G r)) = []).
Proof.
  intros Hin Hpos Hnone b.
  assert (Hc : In (AnyOf []) (clauses b)).
  { unfold b. rewrite Fits_build_where. cbv zeta. cbn [clauses].
    unfold Fits_where, group_facet. now apply group_loop_member with group. }
  assert (Hsel : forall cfg, Store.selects (args b) (clauses b) cfg = false).
  { intros cfg. unfold Store.selects.
    now apply forallb_false_elem with (AnyOf []). }
  split; [exact Hc |]. split; [reflexivity |].
  split; [apply Fits_build_renders |]. split; [exact Hsel |]. split.
  - intros db. unfold Fits, Store.SelectContext. fold b.
    rewrite filter_none by (intros cfg _; apply Hsel).
    reflexivity.
  - intros db X HX. unfold Fits. fold b.
    specialize (HX (sb b) (args b) (clauses b)).
    destruct (X (sb b) (args b) (clauses b)) as [rows err]. cbn [fst] in *.
    destruct rows as [|f rows]; [reflexivity |].
    destruct (HX f (or_introl eq_refl)) as (c & _ & _ & Hsome).
    rewrite Hsel in Hsome. discriminate.
Qed.

End EmptyGroup.

Lemma empty_group_selects_nothing_witness :
  let r := req [("ship", ["5"]); ("group", ["25"; "26"])] in
  let db := [ {| Store.row := {| FitRow.Killmail := 1; FitRow.Ship := 5;
                                 FitRow.Name := ""; FitRow.Cost := 0;
                                 FitRow.HiRaw := ""; FitRow.MedRaw := "";
                                 FitRow.LowRaw := ""; FitRow.Hi := [];
                                 FitRow.Med := []; FitRow.Lo := [] |};
                 Store.items := [5%Z; 7%Z] |} ] in
  In "26" (Form_values r "group")
  /\ (0 < Atoi "26")%Z
  /\ FitsRet.Fits
       (fst (Fits {[ 8%Z ]} (fun _ ids => ids) (Store.SelectContext db)
               key_order frigates r)) = [].
Proof.
  intros r db.
  assert (H1 : In "26" (Form_values r "group")) by (vm_compute; auto).
  assert (H2 : (0 < Atoi "26")%Z) by (vm_compute; reflexivity).
  assert (H3 : forall id item, Items frigates !! id = Some item ->
                               Item.Group item <> int32 (Atoi "26")).
  { intros id item H. unfold frigates in H. cbn [Items] in H.
    apply elem_of_list_to_map_2 in H.
    repeat (apply elem_of_cons in H as [H|H]; [injection H as -> ->; vm_compute; discriminate |]).
    now apply elem_of_nil in H. }
  split; [exact H1 |]. split; [exact H2 |].
  destruct (empty_group_selects_nothing {[ 8%Z ]} (fun _ ids => ids)
              key_order frigates r "26" H1 H2 H3) as (_ & _ & _ & _ & H & _).
  now rewrite (H db).
Defined.

(** ** Fits: the result classifier *)

Section Classifier.

Variable ChargeCategories : gset Z.
Variable json_Unmarshal : string -> list Z -> list Z.

Lemma slot_items_filter (G : Global) (ids : list Z) :
  slot_items ChargeCategories G ids = List.filter (kept ChargeCategories G) (map (Items_at G) ids).
Proof.
  induction ids as [|v ids IH]; [reflexivity |].
  cbn [slot_items map List.filter]. unfold kept at 1.
  destruct (IsCharge ChargeCategories (Groups_at G (Item.Group (Items_at G v))));
    cbn [negb]; now rewrite IH.
Qed.

Lemma classify_loop_lookup (G : Global) (fits : list FitRow.t) (i : nat)
    (f0 : FitRow.t) (his meds los : list Z) :
  fits !! i = Some f0 ->
  exists f,
    classify_loop ChargeCategories json_Unmarshal G fits his meds los !! i = Some f
    /\ FitRow.Killmail f = FitRow.Killmail f0
    /\ FitRow.Name f = Item.Name (Items_at G (FitRow.Ship f0))
    /\ match slots_at json_Unmarshal fits i his meds los with
       | (h, m, l) =>
         FitRow.Hi f = FitRow.Hi f0 ++ slot_items ChargeCategories G h
         /\ FitRow.Med f = FitRow.Med f0 ++ slot_items ChargeCategories G m
         /\ FitRow.Lo f = FitRow.Lo f0 ++ slot_items ChargeCategories G l
       end.
Proof.
  revert i his meds los; induction fits as [|g fits IH]; intros i his meds los H.
  - destruct i; discriminate.
  - destruct i as [|i].
    + injection H as ->. eexists. split; [reflexivity |].
      cbn [slots_at]. repeat split.
    + cbn [classify_loop slots_at]. apply (IH i). exact H.
Qed.

(** C6. For every fit returned by the store, each of its three slot lists
    is extended by the entities its identifiers resolve to in the catalog,
    in order, less those whose group is a charge group; no entity of a
    charge group is ever in what is appended.  For the identifiers
    [100; 200] where the group of entity 200 is a charge group, only
    entity 100 can be listed (and is, unless its own group is one). *)
Theorem classifier_drops_charges (G : Global) (fits : list FitRow.t) (i : nat)
    (f0 : FitRow.t) :
  fits !! i = Some f0 ->
  (exists f,
     classify ChargeCategories json_Unmarshal G fits !! i = Some f
     /\ match slots_at json_Unmarshal fits i [] [] [] with
        | (his, meds, los) =>
          FitRow.Hi f = FitRow.Hi f0 ++ List.filter (kept ChargeCategories G) (map (Items_at G) his)
          /\ FitRow.Med f = FitRow.Med f0 ++ List.filter (kept ChargeCategories G) (map (Items_at G) meds)
          /\ FitRow.Lo f = FitRow.Lo f0 ++ List.filter (kept ChargeCategories G) (map (Items_at G) los)
        end)
  /\ (forall ids item,
        In item (slot_items ChargeCategories G ids) ->
        IsCharge ChargeCategories (Groups_at G (Item.Group item)) = false)
  /\ (IsCharge ChargeCategories (Groups_at G (Item.Group (Items_at G 200))) = true ->
      slot_items ChargeCategories G [100%Z; 200%Z] =
        if IsCharge ChargeCategories (Groups_at G (Item.Group (Items_at G 100)))
        then [] else [Items_at G 100]).
Proof.
  intros H. split; [| split].
  - destruct (classify_loop_lookup G fits i f0 [] [] [] H) as (f & Hf & _ & _ & Hs).
    exists f. split; [exact Hf |].
    destruct (slots_at json_Unmarshal fits i [] [] []) as [[his meds] los].
    now rewrite <- !slot_items_filter.
  - intros ids item Hin. rewrite slot_items_filter in Hin.
    apply filter_In in Hin as [_ Hk]. unfold kept in Hk.
    now apply negb_true_iff in Hk.
  - intros H200. cbn [slot_items]. rewrite H200.
    now destruct (IsCharge ChargeCategories (Groups_at G (Item.Group (Items_at G 100)))).
Qed.

(** C7 (amended). An identifier with no entry in the catalog never causes
    an error: it reads as the zero entity, which is appended to the slot
    list unless the group read under identifier 0 is a charge group; the
    error of [Fits] is that of the store executor and nothing else. *)
Theorem unresolved_slot_zero_item (G : Global) (v : Z) (ids : list Z) :
  Items G !! v = None ->
  slot_items ChargeCategories G (v :: ids) =
    (if IsCharge ChargeCategories (Groups_at G 0) then [] else [Item.zero])
    ++ slot_items ChargeCategories G ids
  /\ forall (X : Executor) (sigma : Scheduler) (r : Request),
       snd (Fits ChargeCategories json_Unmarshal X sigma G r) =
       snd (X (sb (Fits_build sigma G r)) (args (Fits_build sigma G r))
              (clauses (Fits_build sigma G r))).
Proof.
  intros H. split.
  - cbn [slot_items]. unfold Items_at at 1 2. rewrite H. cbn [default Item.Group Item.zero].
    now destruct (IsCharge ChargeCategories (Groups_at G 0)).
  - intros X sigma r. unfold Fits.
    now destruct (X _ _ _).
Qed.

End Classifier.

Lemma classifier_drops_charges_witness :
  let f0 := {| FitRow.Killmail := 1; FitRow.Ship := 5; FitRow.Name := "";
               FitRow.Cost := 0; FitRow.HiRaw := "[100,200]"; FitRow.MedRaw := "[]";
               FitRow.LowRaw := "[]"; FitRow.Hi := []; FitRow.Med := [];
               FitRow.Lo := [] |} in
  [f0] !! 0 = Some f0
  /\ slot_items {[ 8%Z ]} modules [100%Z; 200%Z] = [Items_at modules 100].
Proof.
  intros f0.
  assert (H : [f0] !! 0 = Some f0) by reflexivity.
  split; [exact H |].
  destruct (classifier_drops_charges {[ 8%Z ]} toy_Unmarshal modules [f0] 0 f0 H)
    as (_ & _ & H200).
  rewrite H200 by (vm_compute; reflexivity).
  vm_compute. reflexivity.
Defined.

(** C7, as stated, fails: the identifier 999 is not in the catalog and
    contributes the zero entity to the slot list. *)
Lemma unresolved_slot_kept :
  Items modules !! 999%Z = None
  /\ slot_items {[ 8%Z ]} modules [999%Z] <> []
  /\ slot_items {[ 8%Z ]} modules [999%Z] = [Item.zero].
Proof. vm_compute. repeat split. discriminate. Qed.

Lemma unresolved_slot_zero_item_witness :
  Items modules !! 999%Z = None
  /\ slot_items {[ 8%Z ]} modules [999%Z; 100%Z] = [Item.zero; Items_at modules 100].
Proof.
  assert (H : Items modules !! 999%Z = None) by (vm_compute; reflexivity).
  split; [exact H |].
  destruct (unresolved_slot_zero_item {[ 8%Z ]} toy_Unmarshal modules 999 [100%Z] H)
    as (Hs & _).
  rewrite Hs. vm_compute. reflexivity.
Defined.

(** ** Fit *)

(** C9. For every request with no configuration identifier, [Fit] returns
    the error "missing fit id" with no value, and issues no query to the
    store. *)
Theorem missing_fit_id
    (QueryRowContext : string -> list Arg -> (Z * string * string) + error)
    (FitRet : Type) (Fit_answer : Global -> Z * string * string -> FitRet * option error)
    (G : Global) (r : Request) :
  Form r !! "id" = None ->
  Fit QueryRowContext FitRet Fit_answer G r = ((None, Some "missing fit id"), []).
Proof.
  intros H. unfold Fit, Form_Get, Form_values. rewrite H. reflexivity.
Qed.

Lemma missing_fit_id_witness :
  Form (req [("term", ["abc"])]) !! "id" = None
  /\ Fit (fun _ _ => inr "sql: no rows in result set") unit (fun _ _ => (tt, None))
       frigates (req [("term", ["abc"])])
     = ((None, Some "missing fit id"), []).
Proof.
  assert (H : Form (req [("term", ["abc"])]) !! "id" = None) by (vm_compute; reflexivity).
  split; [exact H |].
  exact (missing_fit_id (fun _ _ => inr "sql: no rows in result set") unit
           (fun _ _ => (tt, None)) frigates (req [("term", ["abc"])]) H).
Defined.

(** * Further properties *)

(** ** Fits: the shape of the query *)

(** The group loop passes over the values that are not positive and runs
    one step for each of the others. *)
Lemma group_loop_fold sigma G vals b :
  group_loop sigma G vals b =
  fold_left (fun b g => group_step sigma G (int32 g) b) (positive_ids vals) b.
Proof.
  revert b; induction vals as [|v vals IH]; intros b; [reflexivity |].
  rewrite group_loop_cons. unfold positive_ids. cbn [map List.filter].
  fold (positive_ids vals).
  destruct (Z.leb_spec (Atoi v) 0) as [Hle|Hgt].
  - replace (0 <? Atoi v)%Z with false by (symmetry; apply Z.ltb_ge; lia). apply IH.
  - replace (0 <? Atoi v)%Z with true by (symmetry; apply Z.ltb_lt; lia).
    cbn [fold_left]. apply IH.
Qed.

Lemma numbered_snoc (b : Build) (cs : list Clause) (more : list Arg) (c : Clause) :
  numbered b ->
  clause_params c = seq (S (length (args b))) (length more) ->
  concat (map clause_params (clauses b ++ [c])) = seq 1 (length (args b ++ more)).
Proof.
  unfold numbered. intros Hb Hc.
  rewrite map_app, concat_app, Hb. cbn [map concat]. rewrite app_nil_r, Hc.
  rewrite length_app. now rewrite seq_app.
Qed.

Lemma group_step_numbered sigma G gid b :
  numbered b -> numbered (group_step sigma G gid b).
Proof.
  intros Hb. unfold numbered, group_step. cbn [clauses args].
  apply (numbered_snoc b [] _ _ Hb). cbn [clause_params]. now rewrite length_map.
Qed.

Lemma Fits_where_numbered sigma G r : numbered (Fits_where sigma G r).
Proof.
  unfold Fits_where, group_facet. rewrite group_loop_fold.
  set (b2 := item_facet G r _).
  assert (H2 : numbered b2).
  { unfold b2. rewrite item_facet_spec. cbv zeta.
    set (b1 := ship_facet G r _).
    assert (H1 : numbered b1).
    { unfold b1, ship_facet.
      destruct (0 <? Atoi (Form_Get r "ship"))%Z; reflexivity. }
    destruct (positive_ids (Form_values r "item")) as [|i items]; [exact H1 |].
    unfold numbered. cbn [clauses args].
    now apply (numbered_snoc b1 [] [_] _ H1). }
  revert H2. generalize b2.
  induction (positive_ids (Form_values r "group")) as [|g gs IH]; intros b Hb;
    [exact Hb |].
  cbn [fold_left]. apply IH. now apply group_step_numbered.
Qed.

Lemma param_is_Some (l : list Arg) (n : nat) :
  In n (seq 1 (length l)) -> is_Some (Store.param l n).
Proof.
  intros H. apply in_seq in H. destruct n as [|k]; [lia |].
  cbn [Store.param]. apply lookup_lt_is_Some. lia.
Qed.

(** X1. The query of [Fits] is a parameterized statement: its text is the
    two literals around the rendering of the clauses, so that it holds
    nothing of the request but placeholder numbers; the placeholders are
    $1, $2, ... in the order written, each used once, and there are as
    many as bound parameters, so that each one is bound. *)
Theorem query_parameterized (sigma : Scheduler) (G : Global) (r : Request) :
  let b := Fits_build sigma G r in
  sb b = select_sql +:+ render_clauses (clauses b) +:+ order_limit_sql
  /\ concat (map clause_params (clauses b)) = seq 1 (length (args b))
  /\ Forall (fun c => Forall (fun n => is_Some (Store.param (args b) n))
                             (clause_params c)) (clauses b).
Proof.
  intros b. pose proof (Fits_where_numbered sigma G r) as Hn.
  assert (Hb : concat (map clause_params (clauses b)) = seq 1 (length (args b)))
    by exact Hn.
  split; [apply Fits_build_renders |]. split; [exact Hb |].
  apply Forall_forall. intros c Hc. apply Forall_forall. intros n Hin.
  apply param_is_Some. rewrite <- Hb.
  apply in_concat. exists (clause_params c). split.
  - apply in_map. now apply list_elem_of_In.
  - now apply list_elem_of_In.
Qed.

(** ** strconv.Atoi stays within [int] *)






(** ** Fits: the three facets in turn *)

Lemma members_Permutation (gid : Z) (l l' : list (Z * Item.t)) :
  l ≡ₚ l' -> members gid l ≡ₚ members gid l'.
Proof.
  unfold members. induction 1 as [|x l l' _ IH|x y l|l1 l2 l3 _ IH1 _ IH2].
  - reflexivity.
  - cbn [List.filter]. destruct (Item.Group x.2 =? gid)%Z; cbn [map]; now rewrite IH.
  - cbn [List.filter].
    destruct (Item.Group x.2 =? gid)%Z, (Item.Group y.2 =? gid)%Z; cbn [map];
      try reflexivity. apply perm_swap.
  - now rewrite IH1.
Qed.

Lemma param_app_seq (pre xs post : list Arg) :
  map (Store.param (pre ++ xs ++ post)) (seq (S (length pre)) (length xs))
  = map Some xs.
Proof.
  revert pre; induction xs as [|x xs IH]; intros pre; [reflexivity |].
  cbn [length seq map Store.param]. f_equal.
  - rewrite lookup_app_r by lia. now rewrite Nat.sub_diag.
  - specialize (IH (pre ++ [x])). rewrite length_app in IH. cbn [length] in IH.
    rewrite Nat.add_1_r, <- app_assoc in IH. exact IH.
Qed.

Lemma members_in_catalog sigma G gid n id :
  In id (members gid (range_Items sigma n (Items G))) -> is_Some (Items G !! id).
Proof.
  unfold members. intros H. apply in_map_iff in H as ([id' item] & <- & H).
  apply filter_In in H as [H _]. apply list_elem_of_In in H.
  rewrite (range_Items_perm sigma n (Items G)) in H.
  apply elem_of_map_to_list in H. now exists item.
Qed.

Lemma group_fold_shape sigma G gs b :
  let b' := fold_left (fun b g => group_step sigma G (int32 g) b) gs b in
  exists cs more,
    clauses b' = clauses b ++ cs
    /\ args b' = args b ++ more
    /\ Forall2 (binds G (args b')) gs cs
    /\ Forall (arg_ok G) more.
Proof.
  revert b; induction gs as [|g gs IH]; intros b; cbn [fold_left].
  - exists [], []. rewrite !app_nil_r. repeat split; constructor.
  - destruct (IH (group_step sigma G (int32 g) b)) as (cs & more & Hc & Ha & HF & Hok).
    set (b' := fold_left _ gs _) in *.
    set (ids := members (int32 g) (range_Items sigma (ranges b) (Items G))).
    unfold group_step in Hc, Ha. cbn [clauses args] in Hc, Ha. fold ids in Hc, Ha.
    exists (AnyOf (seq (S (length (args b))) (length ids)) :: cs),
           (map ArgInt32 ids ++ more).
    rewrite <- !app_assoc in Hc, Ha. split; [exact Hc |]. split; [exact Ha |]. split.
    + constructor; [| exact HF].
      exists (seq (S (length (args b))) (length ids)), ids.
      split; [reflexivity |]. split.
      * rewrite Ha. pose proof (param_app_seq (args b) (map ArgInt32 ids) more) as Hp.
        rewrite length_map, map_map in Hp. exact Hp.
      * unfold ids, catalog_members. apply members_Permutation, range_Items_perm.
    + apply Forall_app. split; [| exact Hok].
      apply Forall_forall. intros a Ha'. apply list_elem_of_In, in_map_iff in Ha'.
      destruct Ha' as (id & <- & Hid). cbn [arg_ok].
      now apply members_in_catalog in Hid.
Qed.


(** X2. The clauses of [Fits] come in the order of the source: the one of
    the primary entity (placeholder $1, bound to the identifier as an
    [int]) if it is positive, then the one of the component entities (the
    next placeholder) if one of them is positive, then one clause for each
    positive group value, in the order of the request; the clause of a
    group value [g] binds, each under its own placeholder and in some
    order, exactly the entities the catalog has in the group [int32 g]. *)
Theorem facets_in_turn (sigma : Scheduler) (G : Global) (r : Request) :
  let ship := Atoi (Form_Get r "ship") in
  let items := positive_ids (Form_values r "item") in
  let groups := positive_ids (Form_values r "group") in
  let b := Fits_build sigma G r in
  exists cs more,
    clauses b = ship_clause ship ++ item_clause (length (ship_arg ship)) items ++ cs
    /\ args b = ship_arg ship ++ item_arg items ++ more
    /\ Forall2 (binds G (args b)) groups cs.
Proof.
  intros ship items groups b. unfold b. rewrite Fits_build_where. cbv zeta.
  cbn [clauses args]. unfold Fits_where, group_facet. rewrite group_loop_fold.
  fold groups.
  destruct (group_fold_shape sigma G groups
              (item_facet G r (ship_facet G r
                 {| sb := select_sql; args := []; Filter := ∅; clauses := []; ranges := 0 |})))
    as (cs & more & Hc & Ha & HF & _).
  cbv zeta in Hc, Ha, HF. exists cs, more.
  rewrite Hc, Ha. rewrite item_facet_spec. cbv zeta. fold items.
  unfold ship_facet, ship_clause, ship_arg. fold ship.
  rewrite Ha in HF. rewrite item_facet_spec in HF. cbv zeta in HF. fold items in HF.
  unfold ship_facet in HF. fold ship in HF.
  destruct (0 <? ship)%Z, items as [|i items']; cbn [clauses args app length item_clause item_arg] in *;
    rewrite <- ?app_assoc in *; cbn [app] in *; repeat split; try reflexivity; exact HF.
Qed.


(** ** Fits: the echo, and the values passed over *)

Lemma group_fold_echo sigma G gs b :
  let b' := fold_left (fun b g => group_step sigma G (int32 g) b) gs b in
  Filter b' !! "group" =
    match gs with
    | [] => Filter b !! "group"
    | _ => Some (default [] (Filter b !! "group")
                 ++ map (fun g => group_echo (Groups_at G (int32 g))) gs)
    end
  /\ forall key, key <> "group" -> Filter b' !! key = Filter b !! key.
Proof.
  revert b; induction gs as [|g gs IH]; intros b; cbn [fold_left]; [now split |].
  destruct (IH (group_step sigma G (int32 g) b)) as [Hg Hk].
  set (b' := fold_left _ gs _) in *.
  unfold group_step, echo in Hg, Hk. cbn [Filter] in Hg, Hk.
  split.
  - rewrite Hg, lookup_insert_eq. cbn [map].
    destruct gs; [reflexivity |].
    change (default [] (Some ?x)) with x. now rewrite <- app_assoc.
  - intros key Hne. rewrite Hk by exact Hne.
    now rewrite lookup_insert_ne by congruence.
Qed.

(** X4. The echo returned by [Fits] has at most the keys "ship", "item"
    and "group".  Under "ship" is the one entity read in the catalog at the
    32-bit wrap of the primary identifier, if that is positive; under
    "item" the entities read likewise for the positive component
    identifiers, in order; under "group" one entry per positive group
    value, in order, with the name and identifier of the group read in
    the catalog (the zero group when it is not there). *)
Theorem echo_contents (sigma : Scheduler) (G : Global) (r : Request) :
  let ship := Atoi (Form_Get r "ship") in
  let items := positive_ids (Form_values r "item") in
  let groups := positive_ids (Form_values r "group") in
  let F := Filter (Fits_build sigma G r) in
  F !! "ship" = (if (0 <? ship)%Z then Some [Items_at G (int32 ship)] else None)
  /\ F !! "item" = match items with
                   | [] => None
                   | _ => Some (map (fun i => Items_at G (int32 i)) items)
                   end
  /\ F !! "group" = match groups with
                    | [] => None
                    | _ => Some (map (fun g => group_echo (Groups_at G (int32 g))) groups)
                    end
  /\ forall key, key <> "ship" -> key <> "item" -> key <> "group" -> F !! key = None.
Proof.
  intros ship items groups F. unfold F. rewrite Fits_build_where. cbv zeta.
  cbn [Filter]. unfold Fits_where, group_facet. rewrite group_loop_fold. fold groups.
  set (b1 := ship_facet G r _).
  destruct (group_fold_echo sigma G groups (item_facet G r b1)) as [Hg Hk].
  cbv zeta in Hg, Hk.
  assert (H1 : Filter b1 !! "ship"
               = (if (0 <? ship)%Z then Some [Items_at G (int32 ship)] else None)
               /\ forall key, key <> "ship" -> Filter b1 !! key = None).
  { unfold b1, ship_facet. fold ship. destruct (0 <? ship)%Z; cbn [Filter]; unfold echo.
    - split; [now rewrite lookup_insert_eq, lookup_empty |].
      intros key Hne. rewrite lookup_insert_ne by congruence. apply lookup_empty.
    - split; [apply lookup_empty | intros; apply lookup_empty]. }
  destruct H1 as [H1s H1k].
  assert (H2 : forall key, key <> "item" ->
                 Filter (item_facet G r b1) !! key = Filter b1 !! key).
  { intros key Hne. rewrite item_facet_spec. cbv zeta.
    destruct (positive_ids (Form_values r "item")); [reflexivity |].
    cbn [Filter]. now rewrite echo_all_lookup_ne by congruence. }
  split; [| split; [| split]].
  - rewrite Hk, H2 by discriminate. exact H1s.
  - rewrite Hk by discriminate. rewrite item_facet_spec. cbv zeta. fold items.
    destruct items as [|i items']; [now apply H1k |].
    cbn [Filter]. rewrite echo_all_lookup. cbn [map].
    now rewrite H1k by discriminate.
  - rewrite Hg, H2, H1k by discriminate. now destruct groups.
  - intros key Hs Hi Hgr. rewrite Hk, H2 by assumption. now apply H1k.
Qed.

(** X5. A value of a facet that does not read as a positive integer
    (empty, not a number, zero or negative) is passed over without a
    trace: two requests whose primary identifiers agree once those at or
    below zero are taken as zero, and whose positive component and group
    identifiers are the same lists, yield the same text, parameters and
    echo. *)
Theorem non_positive_ignored (sigma : Scheduler) (G : Global) (r r' : Request) :
  Z.max 0 (Atoi (Form_Get r "ship")) = Z.max 0 (Atoi (Form_Get r' "ship")) ->
  positive_ids (Form_values r "item") = positive_ids (Form_values r' "item") ->
  positive_ids (Form_values r "group") = positive_ids (Form_values r' "group") ->
  Fits_build sigma G r = Fits_build sigma G r'.
Proof.
  intros Hs Hi Hg. rewrite !Fits_build_where. cbv zeta.
  assert (H : Fits_where sigma G r = Fits_where sigma G r'); [| now rewrite H].
  unfold Fits_where, group_facet. rewrite !group_loop_fold, Hg. f_equal.
  rewrite !item_facet_spec. cbv zeta. rewrite Hi.
  assert (H1 : forall b, ship_facet G r b = ship_facet G r' b); [| now rewrite H1].
  intros b. unfold ship_facet.
  destruct (Z.ltb_spec 0 (Atoi (Form_Get r "ship"))),
           (Z.ltb_spec 0 (Atoi (Form_Get r' "ship"))); try lia; [| reflexivity].
  replace (Atoi (Form_Get r' "ship")) with (Atoi (Form_Get r "ship")) by lia.
  reflexivity.
Qed.

Lemma non_positive_ignored_witness :
  let r := req [("ship", ["0"]); ("item", ["7"; "0"; "x"; "-2"]); ("group", [""; "25"])] in
  let r' := req [("item", ["+7"]); ("group", ["25"])] in
  Z.max 0 (Atoi (Form_Get r "ship")) = Z.max 0 (Atoi (Form_Get r' "ship"))
  /\ positive_ids (Form_values r "item") = positive_ids (Form_values r' "item")
  /\ positive_ids (Form_values r "group") = positive_ids (Form_values r' "group")
  /\ Fits_build key_order frigates r = Fits_build key_order frigates r'.
Proof.
  intros r r'.
  assert (H1 : Z.max 0 (Atoi (Form_Get r "ship")) = Z.max 0 (Atoi (Form_Get r' "ship")))
    by (vm_compute; reflexivity).
  assert (H2 : positive_ids (Form_values r "item") = positive_ids (Form_values r' "item"))
    by (vm_compute; reflexivity).
  assert (H3 : positive_ids (Form_values r "group") = positive_ids (Form_values r' "group"))
    by (vm_compute; reflexivity).
  split; [exact H1 |]. split; [exact H2 |]. split; [exact H3 |].
  exact (non_positive_ignored key_order frigates r r' H1 H2 H3).
Defined.

(** ** Fits: the rows of the store *)

Section Rows.

Variable ChargeCategories : gset Z.
Variable json_Unmarshal : string -> list Z -> list Z.

Lemma classify_loop_rows (G : Global) (fits : list FitRow.t) (his meds los : list Z) :
  let out := classify_loop ChargeCategories json_Unmarshal G fits his meds los in
  map FitRow.Killmail out = map FitRow.Killmail fits
  /\ map FitRow.Ship out = map FitRow.Ship fits
  /\ map FitRow.Cost out = map FitRow.Cost fits
  /\ map FitRow.Name out = map (fun f => Item.Name (Items_at G (FitRow.Ship f))) fits.
Proof.
  cbv zeta.
  revert his meds los; induction fits as [|f fits IH]; intros; [now repeat split |].
  cbn [classify_loop map FitRow.Killmail FitRow.Ship FitRow.Cost FitRow.Name].
  destruct (IH (json_Unmarshal (FitRow.HiRaw f) his)
               (json_Unmarshal (FitRow.MedRaw f) meds)
               (json_Unmarshal (FitRow.LowRaw f) los)) as (H1 & H2 & H3 & H4).
  now rewrite H1, H2, H3, H4.
Qed.

(** X6. [Fits] hands back the rows of the store one for one and in their
    order, identifier, ship and cost untouched, each named after its ship
    in the catalog (the empty name when the ship is not there); its error
    is the one of the store, and the rows are classified and returned
    with the echo even when there is one. *)
Theorem rows_kept_in_order (X : Executor) (sigma : Scheduler) (G : Global) (r : Request) :
  let b := Fits_build sigma G r in
  let rows := fst (X (sb b) (args b) (clauses b)) in
  let ret := fst (Fits ChargeCategories json_Unmarshal X sigma G r) in
  length (FitsRet.Fits ret) = length rows
  /\ map FitRow.Killmail (FitsRet.Fits ret) = map FitRow.Killmail rows
  /\ map FitRow.Ship (FitsRet.Fits ret) = map FitRow.Ship rows
  /\ map FitRow.Cost (FitsRet.Fits ret) = map FitRow.Cost rows
  /\ map FitRow.Name (FitsRet.Fits ret)
     = map (fun f => Item.Name (Items_at G (FitRow.Ship f))) rows
  /\ FitsRet.Filter ret = Filter b
  /\ snd (Fits ChargeCategories json_Unmarshal X sigma G r)
     = snd (X (sb b) (args b) (clauses b)).
Proof.
  intros b rows ret. unfold ret, rows, Fits. fold b.
  destruct (X (sb b) (args b) (clauses b)) as [rows' err].
  cbn [fst snd FitsRet.Fits FitsRet.Filter].
  destruct (classify_loop_rows G rows' [] [] []) as (H1 & H2 & H3 & H4).
  cbv zeta in H1, H2, H3, H4. unfold classify.
  split; [| now repeat split].
  rewrite <- (length_map FitRow.Killmail), H1. apply length_map.
Qed.

Lemma slots_at_S (fits : list FitRow.t) (i : nat) (fb : FitRow.t) (his meds los : list Z) :
  fits !! S i = Some fb ->
  slots_at json_Unmarshal fits (S i) his meds los =
  match slots_at json_Unmarshal fits i his meds los with
  | (h, m, l) =>
    (json_Unmarshal (FitRow.HiRaw fb) h, json_Unmarshal (FitRow.MedRaw fb) m,
     json_Unmarshal (FitRow.LowRaw fb) l)
  end.
Proof.
  revert i his meds los; induction fits as [|f fits IH]; intros i his meds los H;
    [discriminate |].
  destruct i as [|i].
  - destruct fits as [|g fits]; [discriminate |]. injection H as ->. reflexivity.
  - cbn [slots_at]. now apply IH.
Qed.

(** X7. The slices the slot identifiers are decoded into live across the
    fits: when the raw high-slot value of a fit leaves the slice as it
    stood ([json.Unmarshal] failed and its error is dropped), the fit is
    given the high-slot entities of the fit before it. *)
Theorem high_slots_carry_over (G : Global) (fits : list FitRow.t) (i : nat)
    (fa fb : FitRow.t) :
  fits !! i = Some fa ->
  fits !! S i = Some fb ->
  json_Unmarshal (FitRow.HiRaw fb) (slots_at json_Unmarshal fits i [] [] []).1.1
    = (slots_at json_Unmarshal fits i [] [] []).1.1 ->
  exists ra rb shown,
    classify ChargeCategories json_Unmarshal G fits !! i = Some ra
    /\ classify ChargeCategories json_Unmarshal G fits !! S i = Some rb
    /\ FitRow.Hi ra = FitRow.Hi fa ++ shown
    /\ FitRow.Hi rb = FitRow.Hi fb ++ shown.
Proof.
  intros Ha Hb Hsame.
  destruct (classify_loop_lookup ChargeCategories json_Unmarshal G fits i fa [] [] [] Ha)
    as (ra & Hra & _ & _ & Hsa).
  destruct (classify_loop_lookup ChargeCategories json_Unmarshal G fits (S i) fb [] [] [] Hb)
    as (rb & Hrb & _ & _ & Hsb).
  rewrite (slots_at_S fits i fb [] [] [] Hb) in Hsb.
  destruct (slots_at json_Unmarshal fits i [] [] []) as [[h m] l].
  cbn [fst] in Hsame. rewrite Hsame in Hsb.
  exists ra, rb, (slot_items ChargeCategories G h).
  split; [exact Hra |]. split; [exact Hrb |]. split; [apply Hsa | apply Hsb].
Qed.

End Rows.

Lemma high_slots_carry_over_witness :
  let fa := {| FitRow.Killmail := 2; FitRow.Ship := 5; FitRow.Name := "";
               FitRow.Cost := 0; FitRow.HiRaw := "[100,200]"; FitRow.MedRaw := "[]";
               FitRow.LowRaw := "[]"; FitRow.Hi := []; FitRow.Med := [];
               FitRow.Lo := [] |} in
  let fb := {| FitRow.Killmail := 1; FitRow.Ship := 7; FitRow.Name := "";
               FitRow.Cost := 0; FitRow.HiRaw := ""; FitRow.MedRaw := "[]";
               FitRow.LowRaw := "[]"; FitRow.Hi := []; FitRow.Med := [];
               FitRow.Lo := [] |} in
  [fa; fb] !! 0 = Some fa
  /\ [fa; fb] !! 1 = Some fb
  /\ exists rb, classify {[ 8%Z ]} toy_Unmarshal modules [fa; fb] !! 1 = Some rb
                /\ FitRow.Hi rb = [Items_at modules 100].
Proof.
  intros fa fb.
  assert (H1 : [fa; fb] !! 0 = Some fa) by reflexivity.
  assert (H2 : [fa; fb] !! 1 = Some fb) by reflexivity.
  split; [exact H1 |]. split; [exact H2 |].
  destruct (high_slots_carry_over {[ 8%Z ]} toy_Unmarshal modules [fa; fb] 0 fa fb H1 H2)
    as (ra & rb & shown & Hra & Hrb & Hsa & Hsb); [vm_compute; reflexivity |].
  exists rb. split; [exact Hrb |].
  rewrite Hsb. cbn [FitRow.Hi fb app].
  assert (Hra' : ra = {| FitRow.Killmail := 2; FitRow.Ship := 5;
                         FitRow.Name := Item.Name (Items_at modules 5);
                         FitRow.Cost := 0; FitRow.HiRaw := "[100,200]";
                         FitRow.MedRaw := "[]"; FitRow.LowRaw := "[]";
                         FitRow.Hi := [Items_at modules 100]; FitRow.Med := [];
                         FitRow.Lo := [] |}).
  { vm_compute in Hra. injection Hra as <-. vm_compute. reflexivity. }
  rewrite Hra' in Hsa. cbn [FitRow.Hi fa app] in Hsa. now rewrite <- Hsa.
Defined.

(** ** Search: what the results are *)

Lemma search_items_prefix G search fields l results :
  exists k,
    search_items G search fields l results
    = results ++ take k (omap (item_hit G search fields) l).
Proof.
  revert results; induction l as [|[id item] l IH]; intros results.
  - exists 0. cbn [search_items omap]. now rewrite app_nil_r.
  - cbn [search_items omap list_omap]. unfold item_hit at 1. cbn [snd fst].
    destruct (match_ search fields (Item.Lower item)); cbn [negb]; [| apply IH].
    destruct (String.eqb _ ""); cbn [negb].
    + destruct (50 <? length results)%nat; [| apply IH].
      exists 0. now rewrite take_0, app_nil_r.
    + match goal with |- context [results ++ [?x]] => set (hit := x) end.
      destruct (50 <? length (results ++ [hit]))%nat.
      * exists 1. reflexivity.
      * destruct (IH (results ++ [hit])) as (k & ->).
        exists (S k). now rewrite <- app_assoc.
Qed.

Lemma search_items_all G search fields l results :
  length (search_items G search fields l results) <= 50 ->
  search_items G search fields l results
  = results ++ omap (item_hit G search fields) l.
Proof.
  revert results; induction l as [|[id item] l IH]; intros results Hlen.
  - cbn [search_items omap]. now rewrite app_nil_r.
  - cbn [search_items omap list_omap] in *. unfold item_hit at 1. cbn [snd fst].
    destruct (match_ search fields (Item.Lower item)); cbn [negb] in *; [| now apply IH].
    destruct (String.eqb _ ""); cbn [negb] in *.
    + destruct (Nat.ltb_spec 50 (length results)); [lia | now apply IH].
    + match goal with |- context [results ++ [?x]] => set (hit := x) in * end.
      destruct (Nat.ltb_spec 50 (length (results ++ [hit]))); [lia |].
      rewrite IH by exact Hlen. now rewrite <- app_assoc.
Qed.

Lemma item_hit_Some G search fields id item x :
  item_hit G search fields (id, item) = Some x ->
  match_ search fields (Item.Lower item) = true
  /\ x = {| Result.Type_ := searchCategories (Group.Category (Groups_at G (Item.Group item)));
            Result.Name := Item.Name item; Result.ID := id |}
  /\ (Result.Type_ x = "ship" \/ Result.Type_ x = "item").
Proof.
  unfold item_hit. cbn [fst snd].
  destruct (match_ search fields (Item.Lower item)); [| discriminate].
  unfold searchCategories.
  repeat match goal with
         | |- context [(?a =? ?b)%Z] => destruct (a =? b)%Z
         end; cbn [String.eqb]; intros H; try discriminate;
    injection H as <-; cbn [Result.Type_]; auto.
Qed.

Section SearchResults.

Variable To_LowerCase : Z -> Z.

(** X8. Every result of [Search] comes from the catalog: it is the name
    and key of a group whose lowercased name matches the term, under the
    type "group", or the name and key of an entity whose precomputed
    lowercase name matches and whose group has a category with a type,
    "ship" or "item", under that type. *)
Theorem results_from_catalog (sigma : Scheduler) (G : Global) (r : Request)
    (ret : SearchRet.t) (x : Result.t) :
  Search To_LowerCase sigma G r = (Some ret, None) ->
  In x (SearchRet.Results ret) ->
  let search := normalize To_LowerCase (Form_Get r "term") in
  let fields := strings.Fields search in
  (exists id g,
     Groups G !! id = Some g
     /\ match_ search fields (ToLower To_LowerCase (Group.Name g)) = true
     /\ x = {| Result.Type_ := "group"; Result.Name := Group.Name g; Result.ID := id |})
  \/ (exists id item,
        Items G !! id = Some item
        /\ match_ search fields (Item.Lower item) = true
        /\ x = {| Result.Type_ :=
                    searchCategories (Group.Category (Groups_at G (Item.Group item)));
                  Result.Name := Item.Name item; Result.ID := id |}
        /\ (Result.Type_ x = "ship" \/ Result.Type_ x = "item")).
Proof.
  intros H Hx search fields. unfold Search in H. cbv zeta in H. fold search fields in H.
  destruct (String.length search <? 3)%nat; [discriminate |].
  injection H as <-. cbn [SearchRet.Results] in Hx.
  destruct (search_items_prefix G search fields (range_Items sigma 0 (Items G))
              (search_groups To_LowerCase search fields (range_Groups sigma (Groups G)) []))
    as (k & Hk).
  rewrite Hk, search_groups_all in Hx. cbn [app] in Hx.
  apply in_app_or in Hx as [Hx|Hx].
  - left. apply in_map_iff in Hx as ([id g] & <- & Hin).
    apply list_elem_of_In, list_elem_of_filter in Hin as [Hm Hin].
    rewrite (range_Groups_perm sigma (Groups G)) in Hin.
    apply elem_of_map_to_list in Hin. exists id, g. now repeat split.
  - right. apply list_elem_of_In, elem_of_take in Hx as (i & Hx & _).
    apply list_elem_of_lookup_2, list_elem_of_omap in Hx as ([id item] & Hin & Hhit).
    rewrite (range_Items_perm sigma 0 (Items G)) in Hin.
    apply elem_of_map_to_list in Hin. exists id, item.
    split; [exact Hin |]. now apply item_hit_Some in Hhit.
Qed.

(** X9. When [Search] returns at most 50 results none was left out: every
    entity of the catalog whose lowercase name matches and whose group has
    a category with a type is among them, as is every matching group. *)
Theorem results_complete_below_cap (sigma : Scheduler) (G : Global) (r : Request)
    (ret : SearchRet.t) :
  Search To_LowerCase sigma G r = (Some ret, None) ->
  length (SearchRet.Results ret) <= 50 ->
  let search := normalize To_LowerCase (Form_Get r "term") in
  let fields := strings.Fields search in
  (forall id item x,
     Items G !! id = Some item ->
     item_hit G search fields (id, item) = Some x ->
     In x (SearchRet.Results ret))
  /\ (forall id g,
        Groups G !! id = Some g ->
        match_ search fields (ToLower To_LowerCase (Group.Name g)) = true ->
        In (group_result (id, g)) (SearchRet.Results ret)).
Proof.
  intros H Hlen search fields. split.
  - intros id item x Hin Hhit. unfold Search in H. cbv zeta in H. fold search fields in H.
    destruct (String.length search <? 3)%nat; [discriminate |].
    injection H as <-. cbn [SearchRet.Results] in *.
    rewrite search_items_all by exact Hlen.
    apply in_or_app. right. apply list_elem_of_In, list_elem_of_omap.
    exists (id, item). split; [| exact Hhit].
    rewrite (range_Items_perm sigma 0 (Items G)). now apply elem_of_map_to_list.
  - intros id g Hg Hm. rewrite Search_unfold in H. cbv zeta in H.
    destruct (_ <? 3)%nat; [discriminate |]. injection H as <-.
    cbn [SearchRet.Results]. apply in_or_app. left. apply list_elem_of_In.
    now apply group_phase_complete.
Qed.

End SearchResults.

Lemma results_from_catalog_witness :
  let r := req [("term", [" RIF"])] in
  let x := {| Result.Type_ := "ship"; Result.Name := "Rifter"; Result.ID := 5 |} in
  let ret := {| SearchRet.Search := "rif"; SearchRet.Results := [x] |} in
  Search unicode.latin1_LowerCase key_order frigates r = (Some ret, None)
  /\ In x (SearchRet.Results ret)
  /\ exists item, Items frigates !! 5%Z = Some item /\ Item.Name item = "Rifter".
Proof.
  intros r x ret.
  assert (H : Search unicode.latin1_LowerCase key_order frigates r = (Some ret, None))
    by (vm_compute; reflexivity).
  assert (Hx : In x (SearchRet.Results ret)) by (left; reflexivity).
  split; [exact H |]. split; [exact Hx |].
  destruct (results_from_catalog unicode.latin1_LowerCase key_order frigates r ret x H Hx)
    as [(id & g & _ & _ & Heq) | (id & item & Hin & _ & Heq & _)].
  - discriminate Heq.
  - injection Heq as _ Hname <-. exists item. split; [exact Hin | now rewrite Hname].
Defined.

Lemma results_complete_below_cap_witness :
  let r := req [("term", ["E R"])] in
  let ret := {| SearchRet.Search := "e r";
                SearchRet.Results :=
                  [{| Result.Type_ := "group"; Result.Name := "Frigate"; Result.ID := 25 |};
                   {| Result.Type_ := "ship"; Result.Name := "Slasher"; Result.ID := 7 |};
                   {| Result.Type_ := "ship"; Result.Name := "Rifter"; Result.ID := 5 |}] |} in
  Search unicode.latin1_LowerCase key_order frigates r = (Some ret, None)
  /\ length (SearchRet.Results ret) <= 50
  /\ In {| Result.Type_ := "ship"; Result.Name := "Rifter"; Result.ID := 5 |}
        (SearchRet.Results ret).
Proof.
  intros r ret.
  assert (H : Search unicode.latin1_LowerCase key_order frigates r = (Some ret, None))
    by (vm_compute; reflexivity).
  assert (Hlen : length (SearchRet.Results ret) <= 50) by (cbn; lia).
  split; [exact H |]. split; [exact Hlen |].
  destruct (results_complete_below_cap unicode.latin1_LowerCase key_order frigates r ret
              H Hlen) as [Hitems _].
  apply (Hitems 5%Z {| Item.ID := 5; Item.Name := "Rifter"; Item.Lower := "rifter";
                       Item.Group := 25 |});
    vm_compute; reflexivity.
Defined.

Lemma item_hit_ids G search fields (l : list (Z * Item.t)) :
  (Result.ID <$> omap (item_hit G search fields) l) `sublist_of` l.*1.
Proof.
  induction l as [|[id item] l IH]; [constructor |].
  cbn [omap list_omap fmap list_fmap fst].
  destruct (item_hit G search fields (id, item)) as [x|] eqn:E.
  - apply item_hit_Some in E as (_ & -> & _). cbn [fmap list_fmap Result.ID].
    now constructor.
  - now constructor.
Qed.

(** X10. No result of [Search] is returned twice: the keys of the catalog
    are distinct, each group and each entity is visited once, and the
    results of groups differ from those of entities by their type. *)
Theorem results_no_duplicates (To_LowerCase : Z -> Z) (sigma : Scheduler)
    (G : Global) (r : Request) (ret : SearchRet.t) :
  Search To_LowerCase sigma G r = (Some ret, None) ->
  NoDup (SearchRet.Results ret).
Proof.
  intros H. unfold Search in H. cbv zeta in H.
  set (search := normalize To_LowerCase (Form_Get r "term")) in *.
  set (fields := strings.Fields search) in *.
  destruct (String.length search <? 3)%nat; [discriminate |].
  injection H as <-. cbn [SearchRet.Results].
  destruct (search_items_prefix G search fields (range_Items sigma 0 (Items G))
              (search_groups To_LowerCase search fields (range_Groups sigma (Groups G)) []))
    as (k & ->).
  rewrite search_groups_all. cbn [app].
  apply NoDup_app. split; [| split].
  - apply (NoDup_fmap_1 Result.ID).
    change (map group_result ?l) with (group_result <$> l).
    rewrite <- list_fmap_compose.
    apply sublist_NoDup with ((range_Groups sigma (Groups G)).*1).
    + rewrite (range_Groups_perm sigma (Groups G)). apply NoDup_fst_map_to_list.
    + apply fmap_sublist, sublist_filter.
  - intros x Hg He.
    apply list_elem_of_fmap in Hg as ([id g] & -> & _).
    apply elem_of_take in He as (i & He & _).
    apply list_elem_of_lookup_2, list_elem_of_omap in He as ([id' item] & _ & Hhit).
    apply item_hit_Some in Hhit as (_ & _ & [Ht|Ht]); discriminate Ht.
  - apply (NoDup_fmap_1 Result.ID). rewrite fmap_take.
    apply sublist_NoDup with ((range_Items sigma 0 (Items G)).*1).
    + rewrite (range_Items_perm sigma 0 (Items G)). apply NoDup_fst_map_to_list.
    + etransitivity; [apply sublist_take | apply item_hit_ids].
Qed.

Lemma results_no_duplicates_witness :
  let r := req [("term", ["E R"])] in
  let ret := {| SearchRet.Search := "e r";
                SearchRet.Results :=
                  [{| Result.Type_ := "group"; Result.Name := "Frigate"; Result.ID := 25 |};
                   {| Result.Type_ := "ship"; Result.Name := "Slasher"; Result.ID := 7 |};
                   {| Result.Type_ := "ship"; Result.Name := "Rifter"; Result.ID := 5 |}] |} in
  Search unicode.latin1_LowerCase key_order frigates r = (Some ret, None)
  /\ NoDup (SearchRet.Results ret).
Proof.
  intros r ret.
  assert (H : Search unicode.latin1_LowerCase key_order frigates r = (Some ret, None))
    by (vm_compute; reflexivity).
  split; [exact H |].
  exact (results_no_duplicates unicode.latin1_LowerCase key_order frigates r ret H).
Defined.

(** ** Search: the fields of a term lie in the term *)

Lemma string_take_drop (n : nat) (s : string) :
  string_take n s +:+ string_drop n s = s.
Proof.
  revert s; induction n as [|n IH]; intros s; [reflexivity |].
  destruct s as [|c s]; [reflexivity |].
  cbn [string_take string_drop]. simpl. now rewrite IH.
Qed.

Lemma DecodeRune_width (c : ascii) (s : string) :
  1 <= snd (utf8.DecodeRuneInString (String c s)).
Proof.
  unfold utf8.DecodeRuneInString.
  repeat match goal with
         | |- context [if ?b then _ else _] => destruct b
         | |- context [match ?x with _ => _ end] => destruct x
         end; cbn [snd]; lia.
Qed.

(** The runes of a string, put end to end, are the string. *)
Lemma concat_spans_from (s : string) (k : nat) :
  strings.concat_spans (utf8.spans_from k s) = string_drop k s.
Proof.
  revert k; induction s as [|c s IH]; intros k.
  - now destruct k.
  - destruct k as [|k]; cbn [utf8.spans_from string_drop]; [| apply IH].
    pose proof (DecodeRune_width c s) as Hw.
    destruct (utf8.DecodeRuneInString (String c s)) as [r w]. cbn [snd] in Hw.
    unfold strings.concat_spans. cbn [fold_right snd].
    fold (strings.concat_spans (utf8.spans_from (w - 1) s)). rewrite IH.
    destruct w as [|w]; [lia |]. cbn [string_take]. rewrite Nat.sub_succ, Nat.sub_0_r.
    simpl. now rewrite string_take_drop.
Qed.

Lemma fields_spans_sub (l : list (Z * string)) (cur : option string) (f : string) :
  In f (strings.fields_spans cur l) ->
  exists pre post,
    default "" cur +:+ strings.concat_spans l = pre +:+ f +:+ post.
Proof.
  revert cur; induction l as [|[r b] l IH]; intros cur Hin.
  - destruct cur as [c|]; [| destruct Hin].
    destruct Hin as [<-|[]]. exists "", "". cbn [default from_option id]. simpl.
    now rewrite !string_app_nil_r.
  - cbn [strings.fields_spans] in Hin.
    change (strings.concat_spans ((r, b) :: l)) with (b +:+ strings.concat_spans l).
    destruct (unicode.IsSpace r).
    + destruct cur as [c|].
      * destruct Hin as [<-|Hin].
        -- exists "", (b +:+ strings.concat_spans l). reflexivity.
        -- destruct (IH None Hin) as (pre & post & H). cbn [default from_option id] in *. simpl in H.
           exists (c +:+ b +:+ pre), post. rewrite H. now rewrite !string_app_assoc.
      * destruct (IH None Hin) as (pre & post & H). cbn [default from_option id] in *. simpl in *.
        exists (b +:+ pre), post. rewrite H. now rewrite !string_app_assoc.
    + destruct cur as [c|].
      * destruct (IH (Some (c +:+ b)) Hin) as (pre & post & H). cbn [default from_option id] in *.
        exists pre, post. now rewrite string_app_assoc in H.
      * destruct (IH (Some b) Hin) as (pre & post & H). cbn [default from_option id] in *. simpl.
        now exists pre, post.
Qed.

Lemma Fields_Substring (T f : string) : In f (strings.Fields T) -> Substring f T.
Proof.
  intros H. apply fields_spans_sub in H as (pre & post & H).
  cbn [default from_option id] in H. simpl in H. unfold utf8.spans in H.
  rewrite concat_spans_from in H. cbn [string_drop] in H. now exists pre, post.
Qed.

Lemma Substring_trans (a b c : string) :
  Substring a b -> Substring b c -> Substring a c.
Proof.
  intros (p1 & q1 & ->) (p2 & q2 & ->).
  exists (p2 +:+ p1), (q1 +:+ q2). now rewrite !string_app_assoc.
Qed.

(** X11. In [Search] the test for the whole term never decides: a
    candidate that contains the term contains each of its fields, so the
    closure [match] returns exactly whether the candidate contains every
    field of the term. *)
Theorem match_is_containsAll (T S : string) :
  match_ T (strings.Fields T) S = containsAll S (strings.Fields T)
  /\ (forall f, In f (strings.Fields T) -> Substring f T).
Proof.
  split; [| intros f; apply Fields_Substring].
  unfold match_. destruct (strings.Contains S T) eqn:E; [| reflexivity].
  symmetry. apply containsAll_true. intros f Hf.
  apply Substring_trans with T; [now apply Fields_Substring | now apply Contains_true].
Qed.

(** ** Fit: the query *)

(** X12. With an identifier that is not empty, [Fit] issues one query, of
    fixed text, bound to the identifier as the string it was given,
    unparsed; an error of the store is returned as it is, with no value. *)
Theorem fit_single_query
    (QueryRowContext : string -> list Arg -> (Z * string * string) + error)
    (FitRet : Type) (Fit_answer : Global -> Z * string * string -> FitRet * option error)
    (G : Global) (r : Request) :
  Form_Get r "id" <> "" ->
  let q := ("SELECT id, km, zkb from killmails where id = $1",
            [ArgString (Form_Get r "id")]) in
  snd (Fit QueryRowContext FitRet Fit_answer G r) = [q]
  /\ (forall e, QueryRowContext q.1 q.2 = inr e ->
        fst (Fit QueryRowContext FitRet Fit_answer G r) = (None, Some e))
  /\ (forall row, QueryRowContext q.1 q.2 = inl row ->
        fst (Fit QueryRowContext FitRet Fit_answer G r)
        = (Some (Fit_answer G row).1, (Fit_answer G row).2)).
Proof.
  intros Hid q. unfold Fit.
  destruct (String.eqb_spec (Form_Get r "id") ""); [contradiction |].
  fold q. cbn [fst snd].
  destruct (QueryRowContext _ _) as [row|e].
  - destruct (Fit_answer G row) as [v err] eqn:E. cbn [fst snd].
    split; [reflexivity |]. split; [discriminate |].
    intros row' H. injection H as <-. now rewrite E.
  - split; [reflexivity |]. split; [| discriminate].
    intros e' H. now injection H as <-.
Qed.

Lemma fit_single_query_witness :
  let r := req [("id", ["12 or 1=1"])] in
  Form_Get r "id" <> ""
  /\ snd (Fit (fun _ _ => inr "sql: no rows in result set") unit
            (fun _ _ => (tt, None)) frigates r)
     = [("SELECT id, km, zkb from killmails where id = $1", [ArgString "12 or 1=1"])].
Proof.
  intros r.
  assert (H : Form_Get r "id" <> "") by (vm_compute; discriminate).
  split; [exact H |].
  destruct (fit_single_query (fun _ _ => inr "sql: no rows in result set") unit
              (fun _ _ => (tt, None)) frigates r H) as (Hq & _).
  exact Hq.
Defined.

(** ** Wrap: the response *)

Ltac header_lookup :=
  repeat first
    [ rewrite lookup_insert_eq
    | rewrite lookup_insert_ne by discriminate
    | rewrite lookup_delete_ne by discriminate ].

Section PipelineProperties.

Variable Value : Type.
Variable json_Marshal : Value -> string + error.
Variable gzip_BestCompression : string -> GzipRun.
Variable Values : Type.
Variable url_ParseQuery : string -> option Values.
Variable Values_Encode : Values -> string.
Variable timed : http.Request -> list Metric.
Variable Header_String : list Metric -> string.

Local Abbreviation Wrap' :=
  (Wrap Value json_Marshal gzip_BestCompression Values url_ParseQuery Values_Encode
        timed Header_String).
Local Abbreviation outcome' :=
  (outcome Value json_Marshal gzip_BestCompression Values url_ParseQuery Values_Encode).
Local Abbreviation requery' := (requery Values url_ParseQuery Values_Encode).

Lemma requery_Header (r : http.Request) :
  http.Header (requery' r) = http.Header r /\ http.Method (requery' r) = http.Method r.
Proof. unfold requery. now destruct (url_ParseQuery (http.RawQuery r)). Qed.

(** The response of [Wrap] to a request that is not a preflight, from the
    outcome of the handler. *)
Lemma Wrap_outcome (f : http.Request -> Value * option error)
    (w : http.Response) (r : http.Request) :
  String.eqb (http.Method r) "OPTIONS" = false ->
  Wrap' f w r =
  let w1 := http.with_header (http.Header_Set "Access-Control-Allow-Origin" "*") w in
  let w2 :=
    if (0 <? length (timed (requery' r)))%nat
    then http.with_header
           (http.Header_Add "Server-Timing" (Header_String (timed (requery' r)))) w1
    else w1 in
  match outcome' f r with
  | inr e => http.Error w2 e 500
  | inl (data, gzip) => writeDataGzip w2 (requery' r) data gzip
  end.
Proof.
  intros H. unfold Wrap, outcome. rewrite H. cbv zeta.
  destruct (f (requery' r)) as [res [e|]]; reflexivity.
Qed.

(** X13. Every response of [Wrap] allows every origin: preflight, success
    and failure alike carry [Access-Control-Allow-Origin: *], whatever
    the writer held before. *)
Theorem cors_on_every_response (f : http.Request -> Value * option error)
    (w : http.Response) (r : http.Request) :
  http.header (Wrap' f w r) !! "Access-Control-Allow-Origin" = Some ["*"].
Proof.
  destruct (String.eqb (http.Method r) "OPTIONS") eqn:E.
  - unfold Wrap. rewrite E. cbv zeta. unfold http.WriteHeader, http.with_header.
    cbn [http.status http.header].
    destruct (http.status w); cbn [http.header]; unfold http.Header_Set; header_lookup;
      reflexivity.
  - rewrite Wrap_outcome by exact E. cbv zeta.
    destruct (outcome' f r) as [[data gz]|e];
      destruct (0 <? length (timed (requery' r)))%nat;
      unfold writeDataGzip, http.Error, http.Write, http.WriteHeader, http.with_header;
      cbn [http.status http.header];
      try destruct (strings.Contains _ "gzip");
      cbn [http.status http.header];
      destruct (http.status w); cbn [http.status http.header];
      unfold http.Header_Set, http.Header_Add, http.Header_Del; header_lookup;
      reflexivity.
Qed.

(** X14. A preflight ([OPTIONS]) is answered by [Wrap] itself: status
    204, nothing written to the body, the four CORS headers set, and the
    handler is not consulted, the response being the same for every
    handler. *)
Theorem preflight_answered (f : http.Request -> Value * option error)
    (w : http.Response) (r : http.Request) :
  http.Method r = "OPTIONS" ->
  http.status w = None ->
  let w' := Wrap' f w r in
  http.status w' = Some 204%Z
  /\ http.body w' = http.body w
  /\ http.header w' !! "Access-Control-Allow-Origin" = Some ["*"]
  /\ http.header w' !! "Access-Control-Allow-Methods" = Some ["GET"]
  /\ http.header w' !! "Access-Control-Allow-Headers" = Some ["Content-Type"]
  /\ http.header w' !! "Access-Control-Max-Age" = Some ["3600"]
  /\ forall f', Wrap' f' w r = w'.
Proof.
  intros Hm Hs w'. unfold w', Wrap. rewrite Hm. cbn [String.eqb Ascii.eqb Bool.eqb].
  cbv zeta. unfold http.WriteHeader, http.with_header. cbn [http.status http.header].
  rewrite Hs. cbn [http.status http.header http.body]. unfold http.Header_Set.
  repeat split; header_lookup; reflexivity.
Qed.

Lemma Wrap_failure (f : http.Request -> Value * option error)
    (w : http.Response) (r : http.Request) (e : error) :
  http.Method r <> "OPTIONS" ->
  http.status w = None ->
  outcome' f r = inr e ->
  let w' := Wrap' f w r in
  http.status w' = Some 500%Z
  /\ http.body w' = http.body w +:+ e +:+ String (byte_of 10) EmptyString
  /\ http.header w' !! "Content-Type" = Some ["text/plain; charset=utf-8"]
  /\ http.header w' !! "X-Content-Type-Options" = Some ["nosniff"]
  /\ http.header w' !! "Cache-Control" = http.header w !! "Cache-Control"
  /\ http.header w' !! "Content-Encoding" = http.header w !! "Content-Encoding".
Proof.
  intros Hm Hs Ho w'. unfold w'.
  rewrite Wrap_outcome by (now apply String.eqb_neq). cbv zeta. rewrite Ho.
  destruct (0 <? length (timed (requery' r)))%nat;
    unfold http.Error, http.Write, http.WriteHeader, http.with_header;
    cbn [http.status http.header http.body]; rewrite Hs;
    cbn [http.status http.header http.body];
    unfold http.Header_Set, http.Header_Add, http.Header_Del;
    repeat split; header_lookup; reflexivity.
Qed.

(** X15. When the handler returns an error, or its value cannot be
    marshalled or compressed, the response of [Wrap] is the status 500
    with the message of the error and a line feed as plain text; no
    [Cache-Control] and no [Content-Encoding] is added. *)
Theorem failure_response (f : http.Request -> Value * option error)
    (w : http.Response) (r : http.Request) (e : error) :
  http.Method r <> "OPTIONS" ->
  http.status w = None ->
  outcome' f r = inr e ->
  let w' := Wrap' f w r in
  http.status w' = Some 500%Z
  /\ http.body w' = http.body w +:+ e +:+ String (byte_of 10) EmptyString
  /\ http.header w' !! "Content-Type" = Some ["text/plain; charset=utf-8"]
  /\ http.header w' !! "X-Content-Type-Options" = Some ["nosniff"]
  /\ http.header w' !! "Cache-Control" = http.header w !! "Cache-Control"
  /\ http.header w' !! "Content-Encoding" = http.header w !! "Content-Encoding".
Proof. exact (Wrap_failure f w r e). Qed.

Lemma Wrap_success (f : http.Request -> Value * option error)
    (w : http.Response) (r : http.Request) (data gz : string) :
  http.Method r <> "OPTIONS" ->
  http.status w = None ->
  outcome' f r = inl (data, gz) ->
  let w' := Wrap' f w r in
  let accept := http.Header_Get "Accept-Encoding" (http.Header r) in
  http.status w' = Some 200%Z
  /\ http.header w' !! "Content-Type"
     = Some (default [] (http.header w !! "Content-Type") ++ ["application/json"])
  /\ http.header w' !! "Cache-Control"
     = Some (default [] (http.header w !! "Cache-Control") ++ ["max-age=3600"])
  /\ (Substring "gzip" accept ->
        http.body w' = http.body w +:+ gz
        /\ http.header w' !! "Content-Encoding"
           = Some (default [] (http.header w !! "Content-Encoding") ++ ["gzip"]))
  /\ (~ Substring "gzip" accept ->
        http.body w' = http.body w +:+ data
        /\ http.header w' !! "Content-Encoding" = http.header w !! "Content-Encoding").
Proof.
  intros Hm Hs Ho w' accept. unfold w'.
  rewrite Wrap_outcome by (now apply String.eqb_neq). cbv zeta. rewrite Ho.
  unfold writeDataGzip. destruct (requery_Header r) as [-> _]. fold accept.
  destruct (strings.Contains accept "gzip") eqn:E.
  - apply Contains_true in E.
    destruct (0 <? length (timed (requery' r)))%nat;
      unfold http.Write, http.WriteHeader, http.with_header;
      cbn [http.status http.header http.body]; rewrite Hs;
      cbn [http.status http.header http.body];
      unfold http.Header_Set, http.Header_Add;
      (split; [reflexivity |]); (split; [header_lookup; reflexivity |]);
      (split; [header_lookup; reflexivity |]);
      (split; [intros _; split; [reflexivity | header_lookup; reflexivity]
              | intros Hn; contradiction]).
  - assert (Hn : ~ Substring "gzip" accept)
      by (intros H; apply Contains_true in H; congruence).
    destruct (0 <? length (timed (requery' r)))%nat;
      unfold http.Write, http.WriteHeader, http.with_header;
      cbn [http.status http.header http.body]; rewrite Hs;
      cbn [http.status http.header http.body];
      unfold http.Header_Set, http.Header_Add;
      (split; [reflexivity |]); (split; [header_lookup; reflexivity |]);
      (split; [header_lookup; reflexivity |]);
      (split; [intros H; contradiction
              | intros _; split; [reflexivity | header_lookup; reflexivity]]).
Qed.

(** X16. When the handler succeeds and its value is marshalled and
    compressed, the response of [Wrap] is the status 200, typed
    [application/json] and cacheable for an hour; its body is the
    compressed form, announced by [Content-Encoding: gzip], exactly when
    the first [Accept-Encoding] value of the request contains the text
    "gzip" anywhere, and the plain JSON with no [Content-Encoding] added
    otherwise. *)
Theorem success_response (f : http.Request -> Value * option error)
    (w : http.Response) (r : http.Request) (data gz : string) :
  http.Method r <> "OPTIONS" ->
  http.status w = None ->
  outcome' f r = inl (data, gz) ->
  let w' := Wrap' f w r in
  let accept := http.Header_Get "Accept-Encoding" (http.Header r) in
  http.status w' = Some 200%Z
  /\ http.header w' !! "Content-Type"
     = Some (default [] (http.header w !! "Content-Type") ++ ["application/json"])
  /\ http.header w' !! "Cache-Control"
     = Some (default [] (http.header w !! "Cache-Control") ++ ["max-age=3600"])
  /\ (Substring "gzip" accept ->
        http.body w' = http.body w +:+ gz
        /\ http.header w' !! "Content-Encoding"
           = Some (default [] (http.header w !! "Content-Encoding") ++ ["gzip"]))
  /\ (~ Substring "gzip" accept ->
        http.body w' = http.body w +:+ data
        /\ http.header w' !! "Content-Encoding" = http.header w !! "Content-Encoding").
Proof. exact (Wrap_success f w r data gz). Qed.

End PipelineProperties.

Lemma preflight_answered_witness :
  let r := {| http.Method := "OPTIONS"; http.Header := ∅; http.RawQuery := "id=1" |} in
  http.Method r = "OPTIONS"
  /\ http.status fresh = None
  /\ http.status
       (Wrap (option unit) toy_Marshal toy_gzip string Some id toy_timed toy_String
             (fun _ => (None, Some "never asked")) fresh r) = Some 204%Z.
Proof.
  intros r.
  assert (H1 : http.Method r = "OPTIONS") by reflexivity.
  assert (H2 : http.status fresh = None) by reflexivity.
  split; [exact H1 |]. split; [exact H2 |].
  destruct (preflight_answered (option unit) toy_Marshal toy_gzip string Some id
              toy_timed toy_String (fun _ => (None, Some "never asked")) fresh r H1 H2)
    as (H & _).
  exact H.
Defined.

Lemma failure_response_witness :
  let r := get ["gzip"] "id=1" in
  let f := fun _ : http.Request => (@None unit, Some "sql: no rows in result set") in
  http.Method r <> "OPTIONS"
  /\ http.status fresh = None
  /\ outcome (option unit) toy_Marshal toy_gzip string Some id f r
     = inr "sql: no rows in result set"
  /\ http.status
       (Wrap (option unit) toy_Marshal toy_gzip string Some id toy_timed toy_String
             f fresh r) = Some 500%Z.
Proof.
  intros r f.
  assert (H1 : http.Method r <> "OPTIONS") by discriminate.
  assert (H2 : http.status fresh = None) by reflexivity.
  assert (H3 : outcome (option unit) toy_Marshal toy_gzip string Some id f r
               = inr "sql: no rows in result set") by reflexivity.
  split; [exact H1 |]. split; [exact H2 |]. split; [exact H3 |].
  destruct (failure_response (option unit) toy_Marshal toy_gzip string Some id
              toy_timed toy_String f fresh r _ H1 H2 H3) as (H & _).
  exact H.
Defined.

Lemma success_response_witness :
  let r := get ["deflate, gzip;q=0"] "term=abc" in
  let f := fun _ : http.Request => (Some tt, @None error) in
  http.Method r <> "OPTIONS"
  /\ http.status fresh = None
  /\ outcome (option unit) toy_Marshal toy_gzip string Some id f r
     = inl ("null", "gz:null")
  /\ http.body
       (Wrap (option unit) toy_Marshal toy_gzip string Some id toy_timed toy_String
             f fresh r) = "gz:null".
Proof.
  intros r f.
  assert (H1 : http.Method r <> "OPTIONS") by discriminate.
  assert (H2 : http.status fresh = None) by reflexivity.
  assert (H3 : outcome (option unit) toy_Marshal toy_gzip string Some id f r
               = inl ("null", "gz:null")) by reflexivity.
  split; [exact H1 |]. split; [exact H2 |]. split; [exact H3 |].
  destruct (success_response (option unit) toy_Marshal toy_gzip string Some id
              toy_timed toy_String f fresh r _ _ H1 H2 H3) as (_ & _ & _ & Hgz & _).
  destruct Hgz as [Hb _]; [apply Contains_true; vm_compute; reflexivity |].
  exact Hb.
Defined.

(** ** Wrap around the handlers *)

Section Served.

Variable Value : Type.
Variable gzip_BestCompression : string -> GzipRun.
Variable Values : Type.
Variable url_ParseQuery : string -> option Values.
Variable Values_Encode : Values -> string.
Variable timed : http.Request -> list Metric.
Variable Header_String : list Metric -> string.
Variable ParseForm : http.Request -> gmap string (list string).

(** X17. A request for a fit with no identifier is answered, through
    [Wrap], by the status 500 and the line "missing fit id": the missing
    parameter is reported as a server error. *)
Theorem missing_id_is_500
    (FitRet : Type) (json_Marshal : option FitRet -> string + error)
    (QueryRowContext : string -> list Arg -> (Z * string * string) + error)
    (Fit_answer : Global -> Z * string * string -> FitRet * option error)
    (G : Global) (w : http.Response) (r : http.Request) :
  http.Method r <> "OPTIONS" ->
  http.status w = None ->
  ParseForm (requery Values url_ParseQuery Values_Encode r) !! "id" = None ->
  let w' :=
    Wrap (option FitRet) json_Marshal gzip_BestCompression Values url_ParseQuery
         Values_Encode timed Header_String
         (as_handler ParseForm (fun rq => fst (Fit QueryRowContext FitRet Fit_answer G rq)))
         w r in
  http.status w' = Some 500%Z
  /\ http.body w' = http.body w +:+ "missing fit id" +:+ String (byte_of 10) EmptyString.
Proof.
  intros Hm Hs Hid w'.
  destruct (Wrap_failure (option FitRet) json_Marshal gzip_BestCompression Values
              url_ParseQuery Values_Encode timed Header_String
              (as_handler ParseForm
                 (fun rq => fst (Fit QueryRowContext FitRet Fit_answer G rq)))
              w r "missing fit id" Hm Hs) as (H1 & H2 & _).
  - unfold outcome, as_handler, Fit, Form_Get, Form_values. cbn [Form].
    rewrite Hid. reflexivity.
  - now split.
Qed.

(** X18. [Search] never returns an error, so a search request is answered
    by the status 500 only when its result cannot be marshalled or
    compressed; when it can, and that includes the nil result of a term
    too short, the answer is the status 200 with the JSON, compressed or
    not. *)
Theorem search_is_200
    (json_Marshal : option SearchRet.t -> string + error)
    (To_LowerCase : Z -> Z) (sigma : Scheduler) (G : Global)
    (w : http.Response) (r : http.Request) (data gz : string) :
  let h := as_handler ParseForm (Search To_LowerCase sigma G) in
  let res := fst (h (requery Values url_ParseQuery Values_Encode r)) in
  let w' :=
    Wrap (option SearchRet.t) json_Marshal gzip_BestCompression Values url_ParseQuery
         Values_Encode timed Header_String h w r in
  http.Method r <> "OPTIONS" ->
  http.status w = None ->
  json_Marshal res = inl data ->
  gzip_BestCompression data = GzipOk gz ->
  snd (h (requery Values url_ParseQuery Values_Encode r)) = None
  /\ http.status w' = Some 200%Z
  /\ (http.body w' = http.body w +:+ gz \/ http.body w' = http.body w +:+ data).
Proof.
  intros h res w' Hm Hs Hj Hg.
  assert (He : snd (h (requery Values url_ParseQuery Values_Encode r)) = None).
  { unfold h, as_handler, Search. cbv zeta. now destruct (_ <? 3)%nat. }
  split; [exact He |].
  assert (Ho : outcome (option SearchRet.t) json_Marshal gzip_BestCompression Values
                 url_ParseQuery Values_Encode h r = inl (data, gz)).
  { unfold outcome. fold res in Hj.
    destruct (h (requery Values url_ParseQuery Values_Encode r)) as [v err].
    cbn [snd] in He. subst err. cbn [fst] in res. unfold resultToBytes.
    fold res. now rewrite Hj, Hg. }
  destruct (Wrap_success (option SearchRet.t) json_Marshal gzip_BestCompression Values
              url_ParseQuery Values_Encode timed Header_String h w r data gz Hm Hs Ho)
    as (H200 & _ & _ & Hyes & Hno).
  split; [exact H200 |].
  destruct (strings.Contains (http.Header_Get "Accept-Encoding" (http.Header r)) "gzip")
    eqn:E.
  - left. apply Contains_true in E. now apply Hyes.
  - right. apply Hno. intros H. apply Contains_true in H. congruence.
Qed.

End Served.

Lemma missing_id_is_500_witness :
  let r := get [] "" in
  http.Method r <> "OPTIONS"
  /\ http.status fresh = None
  /\ toy_ParseForm "id" (requery string Some id r) !! "id" = None
  /\ http.status
       (Wrap (option unit) toy_Marshal toy_gzip string Some id toy_timed toy_String
          (as_handler (toy_ParseForm "id")
             (fun rq => fst (Fit (fun _ _ => inr "sql: no rows in result set") unit
                               (fun _ _ => (tt, None)) frigates rq)))
          fresh r) = Some 500%Z.
Proof.
  intros r.
  assert (H1 : http.Method r <> "OPTIONS") by discriminate.
  assert (H2 : http.status fresh = None) by reflexivity.
  assert (H3 : toy_ParseForm "id" (requery string Some id r) !! "id" = None)
    by (vm_compute; reflexivity).
  split; [exact H1 |]. split; [exact H2 |]. split; [exact H3 |].
  destruct (missing_id_is_500 toy_gzip string Some id toy_timed toy_String
              (toy_ParseForm "id") unit toy_Marshal
              (fun _ _ => inr "sql: no rows in result set") (fun _ _ => (tt, None))
              frigates fresh r H1 H2 H3) as (H & _).
  exact H.
Defined.

Lemma search_is_200_witness :
  let r := get ["gzip"] "ab" in
  http.Method r <> "OPTIONS"
  /\ http.status fresh = None
  /\ http.status
       (Wrap (option SearchRet.t) toy_Marshal toy_gzip string Some id toy_timed toy_String
          (as_handler (toy_ParseForm "term")
             (Search unicode.latin1_LowerCase key_order frigates))
          fresh r) = Some 200%Z.
Proof.
  intros r.
  assert (H1 : http.Method r <> "OPTIONS") by discriminate.
  assert (H2 : http.status fresh = None) by reflexivity.
  split; [exact H1 |]. split; [exact H2 |].
  destruct (search_is_200 toy_gzip string Some id toy_timed toy_String
              (toy_ParseForm "term") toy_Marshal unicode.latin1_LowerCase key_order
              frigates fresh r "null" "gz:null" H1 H2 eq_refl eq_refl) as (_ & H & _).
  exact H.
Defined.
